(** * Source.cpp: predicate counting, sequential and over K threads

    A shallow embedding of [measure], [seq_cnt], [my_parallel_cnt] and of the
    measuring loop of [main], with the properties the specification states
    about them.

    Conventions of the model.
    - [int] and [long long] values are integers of [Z]; a conversion to [int]
      is written out as [to_int].  The products [1LL * n * k] are taken in
      [long long]; for [int] operands they stay below 2^62, so they are exact.
    - [vector<int>] is [list Z]; an iterator range outside the vector, an
      index outside a vector, have no defined behaviour: the model answers
      [None] (or [Undef] in the monad of [main]).
    - A [double] holding an elapsed time is a finite value; finite doubles
      compare as the rationals they denote, so times are canonical rationals
      [Qc].  The clock of the model is arbitrary; the rounding of a duration
      to a [double] of milliseconds is not modelled.
    - The threads of [my_parallel_cnt] only read [a] and write their own
      slot of [partial]; the model runs them one after the other, in the
      order of a schedule, and [run_threads_schedule] shows that the
      schedule does not matter.
    - [my_parallel_call] and [main] describe the executions in which every
      [std::thread] asked for is started.  The constructor of [std::thread]
      may throw; what [my_parallel_cnt] does then is [my_parallel_cnt_on]. *)

From Stdlib Require Import ZArith Lia QArith Qcanon.
From stdpp Require Import base decidable option numbers list sorting strings.

Local Open Scope Z_scope.

(** ** Machine integers *)

Definition INT_MAX : Z := 2147483647.
Definition INT_MIN : Z := -2147483648.

(** Conversion to [int]: the value modulo 2^32 that lies in
    [INT_MIN, INT_MAX]. *)
Definition to_int (z : Z) : Z := (z - INT_MIN) `mod` 4294967296 + INT_MIN.

(** ** Counting *)

(** [std::count_if(first, last, p)] over the elements of the range. *)
Definition count_if (p : Z → bool) (l : list Z) : Z :=
  foldl (λ c x, if p x then c + 1 else c) 0 l.

(** The elements of [a.begin() + L, a.begin() + R); defined only for
    0 <= L <= R <= a.size(). *)
Definition range (a : list Z) (L R : Z) : option (list Z) :=
  if decide (0 ≤ L ∧ L ≤ R ∧ R ≤ Z.of_nat (length a))
  then Some (take (Z.to_nat (R - L)) (drop (Z.to_nat L) a))
  else None.

(** [seq_cnt(a, p)] *)
Definition seq_cnt (a : list Z) (p : Z → bool) : Z := count_if p a.

(** ** The partition plan

    The two [long long] expressions of the spawning loop,
    [(1LL * n * k) / K] and [(1LL * n * (k + 1)) / K]; the division of C++
    truncates. *)
Definition plan_L (n K k : Z) : Z := (n * k) ÷ K.
Definition plan_R (n K k : Z) : Z := (n * (k + 1)) ÷ K.

(** The ranges of the [K] turns of the loop, in order. *)
Definition PartitionPlan (n K : Z) : list (Z * Z) :=
  (λ k, (plan_L n K k, plan_R n K k)) <$> seqZ 0 K.

(** ** my_parallel_cnt *)

(** What the lambda of one thread captures by value: [L], [R], [k]. *)
Record thread := Thread { th_L : Z; th_R : Z; th_k : Z }.

(** One turn of the spawning loop, for the index [k]. *)
Definition spawn (n K k : Z) : thread :=
  {| th_L := to_int (plan_L n K k);
     th_R := to_int (plan_R n K k);
     th_k := k |}.

(** The body of the lambda:
    [partial[k] = count_if(a.begin() + L, a.begin() + R, p)]. *)
Definition run_thread (a : list Z) (p : Z → bool) (t : thread)
    (partial : list Z) : option (list Z) :=
  r ← range a (th_L t) (th_R t);
  if decide (0 ≤ th_k t < Z.of_nat (length partial))
  then Some (<[Z.to_nat (th_k t) := count_if p r]> partial)
  else None.

(** All the threads of [ths] have run when they are joined; [sched] is the
    order in which their writes to [partial] took place. *)
Fixpoint run_threads (a : list Z) (p : Z → bool) (sched : list thread)
    (partial : list Z) : option (list Z) :=
  match sched with
  | [] => Some partial
  | t :: sched' => run_thread a p t partial ≫= run_threads a p sched'
  end.

(** A call of [my_parallel_cnt]: the threads it created and what it
    returned. *)
Record call := Call { spawned : list thread; returned : option Z }.

Definition my_parallel_call (a : list Z) (p : Z → bool) (K : Z) : call :=
  let n := to_int (Z.of_nat (length a)) in
  if decide (K ≤ 1) then {| spawned := []; returned := Some (seq_cnt a p) |}
  else
    let partial := replicate (Z.to_nat K) 0 in
    let th := spawn n K <$> seqZ 0 K in
    {| spawned := th;
       returned := foldl Z.add 0 <$> run_threads a p th partial |}.

Definition my_parallel_cnt (a : list Z) (p : Z → bool) (K : Z) : option Z :=
  returned (my_parallel_call a p K).

(** [th.emplace_back(...)] constructs a [std::thread], and the constructor
    throws [std::system_error] when the thread cannot be started.
    [my_parallel_cnt] has no handler, and neither has [measure] nor the
    sweep of [main]: the exception unwinds through [th], whose threads are
    joinable, and the program is terminated; no value is returned.
    [creates k] tells whether the thread of the turn [k] is started. *)
Inductive call_outcome : Type :=
  | Returned (r : Z)
  | Undefined
  | Terminated.

(** The spawning loop over the turns [ks]: the threads it started, and
    whether it went through all of its turns.  It ends at the first
    thread that cannot be started. *)
Fixpoint spawn_loop (creates : Z → bool) (n K : Z) (ks : list Z)
    : list thread * bool :=
  match ks with
  | [] => ([], true)
  | k :: ks' =>
      if creates k then
        let r := spawn_loop creates n K ks' in (spawn n K k :: r.1, r.2)
      else ([], false)
  end.

(** The threads that were started run, whether the loop went on or not: a
    range outside the vector has no defined behaviour in either case.
    With every thread started this is the call of [my_parallel_call]. *)
Definition my_parallel_cnt_on (creates : Z → bool) (a : list Z)
    (p : Z → bool) (K : Z) : call_outcome :=
  let n := to_int (Z.of_nat (length a)) in
  if decide (K ≤ 1) then Returned (seq_cnt a p)
  else
    let partial := replicate (Z.to_nat K) 0 in
    let th := spawn_loop creates n K (seqZ 0 K) in
    match run_threads a p th.1 partial with
    | None => Undefined
    | Some partial' =>
        if th.2 then Returned (foldl Z.add 0 partial') else Terminated
    end.

(** A vector of [n] zeros, [vector<int> a(n)]. *)
Definition zeros (n : Z) : list Z := replicate (Z.to_nat n) 0.

(** What the thread of index [k] owes to its slot when the boundaries are
    those of the plan: the count over its range. *)
Definition slot_count (a : list Z) (p : Z → bool) (n K k : Z) : Z :=
  count_if p (take (Z.to_nat (plan_R n K k - plan_L n K k))
                   (drop (Z.to_nat (plan_L n K k)) a)).

(** The light predicate of [main]: [(x & 1) == 0]. *)
Definition pred_light (x : Z) : bool := bool_decide (Z.land x 1 = 0).


(** ** Effects: state, exceptions, undefined behaviour

    [main] reads the clock, prints, calls library algorithms that may throw
    and catches what they throw.  A computation over a state [S] returns a
    value, leaves with an exception, or has no defined behaviour. *)

Inductive result (S A : Type) : Type :=
  | Val (a : A) (s : S)
  | Exn (s : S)
  | Undef.
Arguments Val {S A} a s.
Arguments Exn {S A} s.
Arguments Undef {S A}.

Definition M (S A : Type) : Type := S → result S A.

Global Instance M_ret {S} : MRet (M S) := λ A a s, Val a s.
Global Instance M_bind {S} : MBind (M S) := λ A B f m s,
  match m s with
  | Val a s' => f a s'
  | Exn s' => Exn s'
  | Undef => Undef
  end.

(** A value that the code indexes or dereferences: absent, the behaviour is
    undefined. *)
Definition defined {S A} (o : option A) : M S A := λ s,
  match o with Some a => Val a s | None => Undef end.

(** A call whose result is dropped, as in [[&]() { seq_cnt(a, pred); }]. *)
Definition discard {S A} (m : M S A) : M S () := m ;; mret ().

(** ** measure *)

Section measure.
Context {S : Type}.
(** [clk::now()]: the reading, in milliseconds, and the state after it. *)
Variable now : S → Qc * S.

Definition read_clock : M S Qc := λ s, let (t, s') := now s in Val t s'.

(** The loop [for (int i = 0; i < repeats; i++)], with [i] turns left to
    do and the samples [t] pushed so far. *)
Fixpoint measure_loop (fn : M S ()) (i : nat) (t : list Qc)
    : M S (list Qc) :=
  match i with
  | O => mret t
  | Datatypes.S i' =>
      t0 ← read_clock;
      fn ;;
      t1 ← read_clock;
      measure_loop fn i' (t ++ [(t1 - t0)%Qc])
  end.

Definition measure (fn : M S ()) (repeats : Z) : M S Qc :=
  t ← measure_loop fn (Z.to_nat repeats) [];
  let t' := merge_sort Qcle t in
  defined (t' !! (length t' / 2)%nat).
End measure.

(** Ghost counter of invocations: the state is paired with the number of
    times the operation has been entered. *)
Definition counted {S A} (fn : M S A) : M (S * nat) A := λ '(s, c),
  match fn s with
  | Val a s' => Val a (s', Datatypes.S c)
  | Exn s' => Exn (s', Datatypes.S c)
  | Undef => Undef
  end.

Definition uncounted {S} (now : S → Qc * S) : S * nat → Qc * (S * nat) :=
  λ '(s, c), let (t, s') := now s in (t, (s', c)).

(** Least and greatest sample of a non-empty list. *)
Definition Qc_min (x y : Qc) : Qc := if decide (x ≤ y)%Qc then x else y.
Definition Qc_max (x y : Qc) : Qc := if decide (x ≤ y)%Qc then y else x.
Definition least (x : Qc) (l : list Qc) : Qc := foldr Qc_min x l.
Definition greatest (x : Qc) (l : list Qc) : Qc := foldr Qc_max x l.

(** ** The candidate thread counts *)

Definition small_Ks : list Z := [1; 2; 4; 8; 16; 32; 64].

(** [for (int k = 2; k <= hw * 2; k *= 2) Ks.push_back(k);]
    A signed overflow of [hw * 2] or of [k *= 2] is undefined behaviour.
    [k] doubles, so 32 turns exhaust the range of [int]. *)
Fixpoint push_powers (fuel : nat) (hw k : Z) (Ks : list Z)
    : option (list Z) :=
  match fuel with
  | O => None
  | Datatypes.S fuel' =>
      if decide (hw * 2 < INT_MIN ∨ INT_MAX < hw * 2) then None
      else if decide (k ≤ hw * 2) then
        if decide (INT_MAX < k * 2) then None
        else push_powers fuel' hw (k * 2) (Ks ++ [k])
      else Some Ks
  end.

(** [std::unique] followed by [erase]: one element of every run of equal
    neighbours is kept. *)
Fixpoint unique (l : list Z) : list Z :=
  match l with
  | [] => []
  | x :: l' =>
      match l' with
      | [] => [x]
      | y :: _ => if decide (x = y) then unique l' else x :: unique l'
      end
  end.

Definition candidate_Ks (hw : Z) : option (list Z) :=
  Ks ← push_powers 32 hw 2 small_Ks;
  Some (unique (merge_sort Z.le Ks)).

(** The candidate set as the specification words it: the small constants
    and the multiples of [H] by a power of two that do not exceed twice
    [H], that is [H] and [2 * H]. *)
Definition spec_Ks (H : Z) : list Z :=
  unique (merge_sort Z.le (small_Ks ++ [H; 2 * H])).

(** ** Best-K tracking *)

(** The double nearest to [1e300]: 0x1.7e43c8800759cp+996. *)
Definition bestT_init : Qc := Qc_of_Z (6724873095247260 * 2 ^ 944).
Definition bestK_init : Z := 1.

(** [if (t < bestT) bestT = t, bestK = K;] *)
Definition best_step (best : Qc * Z) (obs : Z * Qc) : Qc * Z :=
  if decide (obs.2 < best.1)%Qc then (obs.2, obs.1) else best.

(** The fold of [best_step] over the observations of a sweep, from the
    initial [bestT = 1e300], [bestK = 1]. *)
Definition track_best (obs : list (Z * Qc)) : Qc * Z :=
  foldl best_step (bestT_init, bestK_init) obs.

(** ** main *)

(** What [main] writes to [cout], one constructor per message.  The line
    of the best K also shows the ratio of [bestK] to [hw], a function of
    the two, which the model leaves out. *)
Inductive line : Type :=
  | CpuThreads (n : Z)
  | SizeHeader (N : Z)
  | PredHeader (name : string)
  | SeqTime (t : Qc)
  | ParTime (t : Qc)
  | ParNotSupported
  | ParUnseqTime (t : Qc)
  | ParUnseqNotSupported
  | CustomHeader
  | ErrorAt (K : Z)
  | KTime (K : Z) (t : Qc)
  | BestK (K : Z) (t : Qc) (hw : Z).

Record world := World {
  clock_reads : nat;    (* calls of clk::now() so far *)
  out : list line       (* cout *)
}.

(** What differs from one execution to the next: the machine, the clock and
    whether the library runs the parallel policies.
    [hardware_concurrency] is the value of [thread::hardware_concurrency()],
    an [unsigned], the same at every call.  [steady_clock i] is the reading
    of the [i]-th call of [clk::now()].  [par_policy i a p] is the outcome
    of [count_if(execution::par, ...)] entered after [i] readings of the
    clock: a count, or [None] when it throws. *)
Record platform := Platform {
  hardware_concurrency : Z;
  steady_clock : nat → Qc;
  par_policy : nat → list Z → (Z → bool) → option Z;
  par_unseq_policy : nat → list Z → (Z → bool) → option Z
}.

(** What every execution of the program shares: the library's random
    engine and distribution, and the heavy predicate (the parity of a sum
    of twelve square roots, computed in [double]). *)
Record library := Library {
  engine : Type;
  mt19937_64 : Z → engine;
  uniform_int : Z → Z → engine → Z * engine;
  pred_heavy : Z → bool
}.

Definition print (l : line) : M world () := λ w,
  Val () {| clock_reads := clock_reads w; out := out w ++ [l] |}.

Definition now (pl : platform) (w : world) : Qc * world :=
  (steady_clock pl (clock_reads w),
   {| clock_reads := Datatypes.S (clock_reads w); out := out w |}).

(** A library call that returns or throws. *)
Definition throwing {A} (f : nat → option A) : M world A := λ w,
  match f (clock_reads w) with Some r => Val r w | None => Exn w end.

Definition par_cnt (pl : platform) (a : list Z) (p : Z → bool) : M world Z :=
  throwing (λ i, par_policy pl i a p).
Definition par_unseq_cnt (pl : platform) (a : list Z) (p : Z → bool)
    : M world Z :=
  throwing (λ i, par_unseq_policy pl i a p).

(** [double t = -1; long long res = res_seq;
     try { res = cnt(a, pred); t = measure(...); cout << ...; }
     catch (...) { cout << "... NOT supported"; }]
    The block returns the two locals.  An assignment made before the
    exception stays. *)
Definition policy_block (pl : platform) (cnt : M world Z) (res_seq : Z)
    (supported : Qc → line) (not_supported : line) : M world (Z * Qc) := λ w,
  let res := res_seq in
  let t := (-1)%Qc in
  match cnt w with
  | Val r w1 =>
      let res := r in
      match measure (now pl) (discard cnt) 7 w1 with
      | Val t' w2 => (print (supported t') ;; mret (res, t')) w2
      | Exn w2 => (print not_supported ;; mret (res, t)) w2
      | Undef => Undef
      end
  | Exn w1 => (print not_supported ;; mret (res, t)) w1
  | Undef => Undef
  end.

(** One turn of [for (int K : Ks)]; the turn also yields its triple
    (K, count, time). *)
Definition sweep_body (pl : platform) (cnt : Z → M world Z) (res_seq : Z)
    (best : Qc * Z) (K : Z) : M world (Qc * Z * (Z * Z * Qc)) :=
  res ← cnt K;
  t ← measure (now pl) (discard (cnt K)) 7;
  let best' := best_step best (K, t) in
  (if decide (res ≠ res_seq) then print (ErrorAt K) else mret ()) ;;
  print (KTime K t) ;;
  mret (best', (K, res, t)).

Fixpoint sweep (pl : platform) (cnt : Z → M world Z) (res_seq : Z)
    (Ks : list Z) (best : Qc * Z) : M world (Qc * Z * list (Z * Z * Qc)) :=
  match Ks with
  | [] => mret (best, [])
  | K :: Ks' =>
      '(best', row) ← sweep_body pl cnt res_seq best K;
      '(best'', rows) ← sweep pl cnt res_seq Ks' best';
      mret (best'', row :: rows)
  end.

(** What a sweep over [Ks] prints when the counts are [res K] and the
    times [ts]: for each K the error line, if the count differs from the
    baseline, then the timing line. *)
Definition sweep_lines (res : Z → Z) (res_seq : Z) (Ks : list Z)
    (ts : list Qc) : list line :=
  concat (zip_with (λ K t, (if decide (res K ≠ res_seq) then [ErrorAt K]
                            else []) ++ [KTime K t]) Ks ts).

(** The locals of one turn of [for (auto& pp : preds)] when it ends. *)
Record report := Report {
  res_seq : Z;
  res_par : Z; t_par : Qc;
  res_par_unseq : Z; t_par_unseq : Qc;
  Ks : list Z;
  rows : list (Z * Z * Qc);
  bestT : Qc; bestK : Z
}.

(** The part of the turn that follows the two policy blocks. *)
Definition custom_block (pl : platform) (cnt : Z → M world Z) (rs : Z)
    : M world (list Z * (Qc * Z * list (Z * Z * Qc))) :=
  print CustomHeader ;;
  let hw := to_int (Z.max 1 (hardware_concurrency pl)) in
  Ks ← defined (candidate_Ks hw);
  r ← sweep pl cnt rs Ks (bestT_init, bestK_init);
  print (BestK r.1.2 r.1.1 hw) ;;
  mret (Ks, r).

Definition pred_block (pl : platform) (a : list Z) (name : string)
    (pred : Z → bool) : M world report :=
  print (PredHeader name) ;;
  let rs := seq_cnt a pred in
  t_seq ← measure (now pl) (discard (mret (seq_cnt a pred))) 7;
  print (SeqTime t_seq) ;;
  par ← policy_block pl (par_cnt pl a pred) rs ParTime ParNotSupported;
  unseq ← policy_block pl (par_unseq_cnt pl a pred) rs
            ParUnseqTime ParUnseqNotSupported;
  c ← custom_block pl (λ K, defined (my_parallel_cnt a pred K)) rs;
  mret {| res_seq := rs;
          res_par := par.1; t_par := par.2;
          res_par_unseq := unseq.1; t_par_unseq := unseq.2;
          Ks := c.1; rows := c.2.2;
          bestT := c.2.1.1; bestK := c.2.1.2 |}.

(** [vector<int> a(N); for (int& x : a) x = d(rng);] with
    [uniform_int_distribution<int> d(0, 1'000'000)]. *)
Fixpoint fill (lib : library) (n : nat) (rng : engine lib)
    : list Z * engine lib :=
  match n with
  | O => ([], rng)
  | Datatypes.S n' =>
      let (x, rng1) := uniform_int lib 0 1000000 rng in
      let (xs, rng2) := fill lib n' rng1 in
      (x :: xs, rng2)
  end.

Definition preds (lib : library) : list (string * (Z → bool)) :=
  [("light", pred_light); ("heavy", pred_heavy lib)].

Fixpoint pred_loop (pl : platform) (a : list Z)
    (ps : list (string * (Z → bool))) : M world (list report) :=
  match ps with
  | [] => mret []
  | pp :: ps' =>
      r ← pred_block pl a pp.1 pp.2;
      rs ← pred_loop pl a ps';
      mret (r :: rs)
  end.

(** [for (int N : Ns)], with the engine as it stands when the turn begins.
    Each turn yields the size, the workload and the reports of the two
    predicates. *)
Fixpoint size_loop (lib : library) (pl : platform) (sizes : list Z)
    (rng : engine lib) : M world (list (Z * list Z * list report)) :=
  match sizes with
  | [] => mret []
  | N :: sizes' =>
      print (SizeHeader N) ;;
      let (a, rng') := fill lib (Z.to_nat N) rng in
      rs ← pred_loop pl a (preds lib);
      rest ← size_loop lib pl sizes' rng';
      mret ((N, a, rs) :: rest)
  end.

Definition Ns : list Z := [100000; 1000000; 5000000].
Definition seed : Z := 123456.

Definition main_for (lib : library) (pl : platform) (sizes : list Z)
    : M world (list (Z * list Z * list report)) :=
  print (CpuThreads (hardware_concurrency pl)) ;;
  size_loop lib pl sizes (mt19937_64 lib seed).

Definition main (lib : library) (pl : platform)
    : M world (list (Z * list Z * list report)) :=
  main_for lib pl Ns.

(** What an execution computes from the engine alone: turn by turn, the
    size, the workload that the engine seeded with [seed] fills, and the
    sequential count of each predicate over it. *)
Fixpoint reference_from (lib : library) (sizes : list Z) (rng : engine lib)
    : list (Z * list Z * list Z) :=
  match sizes with
  | [] => []
  | N :: sizes' =>
      let (a, rng') := fill lib (Z.to_nat N) rng in
      (N, a, (λ pp : string * (Z → bool), seq_cnt a pp.2) <$> preds lib)
        :: reference_from lib sizes' rng'
  end.

Definition reference (lib : library) (sizes : list Z)
    : list (Z * list Z * list Z) :=
  reference_from lib sizes (mt19937_64 lib seed).

(** The same part of what [main] yields. *)
Definition block_data (b : Z * list Z * list report) : Z * list Z * list Z :=
  (b.1.1, b.1.2, res_seq <$> b.2).

(** ** Small instances, used to run the definitions *)

Definition toy_now (s : nat) : Qc * nat :=
  (Qc_of_Z (Z.of_nat (s * s)), Datatypes.S s).

Definition toy_platform' : platform :=
  {| hardware_concurrency := 16;
     steady_clock := λ i, Qc_of_Z (Z.of_nat (i * i * i));
     par_policy := λ _ a p, Some (count_if p a);
     par_unseq_policy := λ _ _ _, None |}.

Definition toy_platform : platform :=
  {| hardware_concurrency := 3;
     steady_clock := λ i, Qc_of_Z (Z.of_nat (i * i));
     par_policy := λ _ _ _, None;
     par_unseq_policy := λ _ a p, Some (count_if p a) |}.

(** A linear congruential engine stands in for the library's. *)
Definition toy_library : library :=
  {| engine := Z;
     mt19937_64 := λ s, s;
     uniform_int := λ lo hi g,
       let g' := (g * 6364136223846793005 + 1442695040888963407) `mod` 2 ^ 64 in
       (lo + (g' ≫ 33) `mod` (hi - lo + 1), g');
     pred_heavy := λ x, bool_decide (x `mod` 3 = 0) |}.

Definition world0 : world := {| clock_reads := 0; out := [] |}.

(** * Properties *)

(** ** Machine integers and counting *)

Lemma to_int_id z : INT_MIN ≤ z ≤ INT_MAX → to_int z = z.
Proof.
  unfold to_int, INT_MIN, INT_MAX. intros Hz.
  rewrite Z.mod_small by lia. lia.
Qed.

Lemma foldl_count (p : Z → bool) l c :
  foldl (λ c x, if p x then c + 1 else c) c l = c + count_if p l.
Proof.
  unfold count_if. revert c.
  induction l as [|x l IH] using rev_ind; intros c; simpl; [lia|].
  rewrite !foldl_app. simpl. rewrite (IH c), (IH 0).
  destruct (p x); lia.
Qed.

Lemma count_if_app p l1 l2 :
  count_if p (l1 ++ l2) = count_if p l1 + count_if p l2.
Proof.
  unfold count_if at 1. rewrite foldl_app.
  fold (count_if p l1). apply foldl_count.
Qed.

Lemma count_if_cons p x l :
  count_if p (x :: l) = (if p x then 1 else 0) + count_if p l.
Proof.
  change (x :: l) with ([x] ++ l). rewrite count_if_app.
  unfold count_if at 1. simpl. by destruct (p x).
Qed.

(** A count does not exceed the size of its range, so the [long long] that
    holds it is exact. *)
Lemma count_if_bounds p l : 0 ≤ count_if p l ≤ Z.of_nat (length l).
Proof.
  induction l as [|x l IH]; [done|].
  rewrite count_if_cons. simpl length. destruct (p x); lia.
Qed.

(** ** The partition plan *)

Lemma plan_R_L n K k : plan_R n K k = plan_L n K (k + 1).
Proof. done. Qed.

Lemma plan_L_floor n K k :
  0 ≤ n → 0 < K → 0 ≤ k → plan_L n K k = (n * k) `div` K.
Proof. intros. unfold plan_L. apply Z.quot_div_nonneg; nia. Qed.

Lemma plan_L_0 n K : 0 < K → plan_L n K 0 = 0.
Proof.
  intros. unfold plan_L. rewrite Z.mul_0_r.
  by apply Z.quot_0_l, Z.neq_sym, Z.lt_neq.
Qed.

Lemma plan_L_K n K : 0 < K → plan_L n K K = n.
Proof. intros. unfold plan_L. apply Z.quot_mul. lia. Qed.

Lemma plan_L_mono n K j k :
  0 ≤ n → 0 < K → 0 ≤ j ≤ k → plan_L n K j ≤ plan_L n K k.
Proof.
  intros. rewrite !plan_L_floor by lia.
  apply Z.div_le_mono; [done|]. nia.
Qed.

Lemma plan_L_bounds n K k :
  0 ≤ n → 0 < K → 0 ≤ k ≤ K → 0 ≤ plan_L n K k ≤ n.
Proof.
  intros. split.
  - rewrite <-(plan_L_0 n K) by done. apply plan_L_mono; lia.
  - rewrite <-(plan_L_K n K) at 2 by done. apply plan_L_mono; lia.
Qed.

(** A sequence of boundaries that starts at or below [i] and ends above it
    has a step that encloses [i]. *)
Lemma enclosing_step (f : Z → Z) (i : Z) (m : nat) :
  f 0 ≤ i < f (Z.of_nat m) →
  ∃ k, 0 ≤ k < Z.of_nat m ∧ f k ≤ i < f (k + 1).
Proof.
  induction m as [|m IH]; intros Hi; [change (Z.of_nat 0) with 0 in Hi; lia|].
  destruct (decide (i < f (Z.of_nat m))) as [Hlt|Hge].
  - destruct IH as (k & ? & ?); [lia|]. exists k. lia.
  - exists (Z.of_nat m). replace (Z.of_nat m + 1) with (Z.of_nat (S m)) by lia.
    lia.
Qed.

Lemma plan_cover n K i :
  0 < K → 0 ≤ i < n →
  ∃ k, 0 ≤ k < K ∧ plan_L n K k ≤ i < plan_R n K k.
Proof.
  intros HK Hi.
  destruct (enclosing_step (plan_L n K) i (Z.to_nat K)) as (k & Hk & ?).
  - rewrite Z2Nat.id, plan_L_0, plan_L_K by lia. lia.
  - exists k. rewrite plan_R_L. split; [lia|done].
Qed.

Lemma plan_disjoint n K j k :
  0 ≤ n → 0 < K → 0 ≤ j < k → plan_R n K j ≤ plan_L n K k.
Proof. intros. rewrite plan_R_L. apply plan_L_mono; lia. Qed.

Lemma lookup_PartitionPlan n K (k : nat) L R :
  PartitionPlan n K !! k = Some (L, R) ↔
  Z.of_nat k < K ∧ L = plan_L n K (Z.of_nat k) ∧ R = plan_R n K (Z.of_nat k).
Proof.
  unfold PartitionPlan. rewrite list_lookup_fmap, fmap_Some. split.
  - intros (x & [-> ?]%lookup_seqZ & [= -> ->]). rewrite Z.add_0_l. done.
  - intros (? & -> & ->). exists (Z.of_nat k). split; [|done].
    apply lookup_seqZ. lia.
Qed.

(** ** The threads of my_parallel_cnt *)

Section threads.
Context (a : list Z) (p : Z → bool) (K : Z).
Let n := Z.of_nat (length a).
Hypothesis size_int : Z.of_nat (length a) ≤ INT_MAX.
Hypothesis K_pos : 0 < K.

Lemma n_to_int : to_int (Z.of_nat (length a)) = n.
Proof. apply to_int_id. unfold INT_MIN. lia. Qed.

Lemma spawn_bounds k :
  0 ≤ k < K →
  th_L (spawn n K k) = plan_L n K k ∧ th_R (spawn n K k) = plan_R n K k ∧
  0 ≤ plan_L n K k ∧ plan_L n K k ≤ plan_R n K k ∧ plan_R n K k ≤ n.
Proof.
  intros Hk. simpl.
  pose proof (plan_L_bounds n K k). pose proof (plan_L_bounds n K (k + 1)).
  pose proof (plan_L_mono n K k (k + 1)). rewrite plan_R_L.
  rewrite !to_int_id; unfold INT_MIN; subst n; lia.
Qed.

Lemma range_spawn k :
  0 ≤ k < K →
  range a (th_L (spawn n K k)) (th_R (spawn n K k)) =
  Some (take (Z.to_nat (plan_R n K k - plan_L n K k))
             (drop (Z.to_nat (plan_L n K k)) a)).
Proof.
  intros Hk. destruct (spawn_bounds k Hk) as (-> & -> & ? & ? & ?).
  unfold range. rewrite decide_True; [done|]. subst n. lia.
Qed.

Lemma run_thread_spawn k pre post :
  0 ≤ k < K → Z.of_nat (length pre) = k →
  run_thread a p (spawn n K k) (pre ++ 0 :: post) =
  Some ((pre ++ [slot_count a p n K k]) ++ post).
Proof.
  intros Hk Hpre. unfold run_thread. rewrite range_spawn by done.
  simpl. rewrite decide_True by (rewrite length_app; simpl; lia).
  f_equal. replace (Z.to_nat k) with (length pre + 0)%nat by lia.
  rewrite insert_app_r. simpl. by rewrite <-app_assoc.
Qed.

Lemma run_threads_spawn (m : nat) j pre :
  0 ≤ j → j + Z.of_nat m ≤ K → Z.of_nat (length pre) = j →
  run_threads a p (spawn n K <$> seqZ j (Z.of_nat m)) (pre ++ replicate m 0) =
  Some (pre ++ (slot_count a p n K <$> seqZ j (Z.of_nat m))).
Proof.
  revert j pre. induction m as [|m IH]; intros j pre Hj Hm Hpre.
  - simpl. by rewrite !app_nil_r.
  - rewrite seqZ_cons by lia. simpl.
    rewrite run_thread_spawn by lia. simpl.
    replace (Z.pred (Z.of_nat (S m))) with (Z.of_nat m) by lia.
    rewrite IH; [by rewrite <-app_assoc|lia|lia|].
    rewrite length_app. simpl. lia.
Qed.

Lemma sum_slot_counts (j : nat) :
  Z.of_nat j ≤ K →
  foldl Z.add 0 (slot_count a p n K <$> seqZ 0 (Z.of_nat j)) =
  count_if p (take (Z.to_nat (plan_L n K (Z.of_nat j))) a).
Proof.
  induction j as [|j IH]; intros Hj.
  - simpl. by rewrite plan_L_0.
  - rewrite seqZ_S, fmap_app, foldl_app, IH by lia. simpl.
    destruct (spawn_bounds (Z.of_nat j)) as (_ & _ & ? & ? & ?); [lia|].
    unfold slot_count. rewrite <-count_if_app, take_take_drop.
    rewrite plan_R_L. do 2 f_equal.
    replace (Z.of_nat (S j)) with (Z.of_nat j + 1) by lia.
    rewrite plan_R_L, ?Z.add_0_l in *. lia.
Qed.

Lemma run_spawned :
  run_threads a p (spawn n K <$> seqZ 0 K) (replicate (Z.to_nat K) 0) =
  Some (slot_count a p n K <$> seqZ 0 K).
Proof.
  pose proof (run_threads_spawn (Z.to_nat K) 0 []) as H.
  rewrite Z2Nat.id in H by lia. apply H; simpl; lia.
Qed.

Lemma my_parallel_cnt_seq : my_parallel_cnt a p K = Some (seq_cnt a p).
Proof.
  unfold my_parallel_cnt, my_parallel_call. case_decide; [done|].
  simpl. rewrite n_to_int, run_spawned. simpl. f_equal.
  pose proof (sum_slot_counts (Z.to_nat K)) as Hsum.
  rewrite Z2Nat.id in Hsum by lia. rewrite Hsum by lia.
  rewrite plan_L_K by done. unfold seq_cnt. f_equal.
  apply take_ge. subst n. lia.
Qed.

(** When there are more threads than elements, one of the first [j]
    ranges is empty, or the boundaries would outrun their indices. *)
Lemma empty_or_ahead (j : nat) :
  Z.of_nat j ≤ K →
  (∃ k, 0 ≤ k < Z.of_nat j ∧ plan_L n K k = plan_R n K k) ∨
  Z.of_nat j ≤ plan_L n K (Z.of_nat j).
Proof.
  induction j as [|j IH]; intros Hj.
  - right. rewrite plan_L_0 by done. simpl. lia.
  - destruct IH as [(k & ? & ?)|Hahead]; [lia|left; exists k; lia|].
    destruct (decide (plan_L n K (Z.of_nat j) = plan_R n K (Z.of_nat j)))
      as [Heq|Hne].
    + left. exists (Z.of_nat j). lia.
    + right. destruct (spawn_bounds (Z.of_nat j)) as (_ & _ & ? & ? & ?); [lia|].
      replace (Z.of_nat (S j)) with (Z.of_nat j + 1) by lia.
      rewrite <-plan_R_L. lia.
Qed.

Lemma empty_range_exists :
  n < K → ∃ k, 0 ≤ k < K ∧ plan_L n K k = plan_R n K k.
Proof.
  intros Hn. destruct (empty_or_ahead (Z.to_nat K)) as [(k & ? & ?)|H]; [lia| |].
  - exists k. lia.
  - rewrite Z2Nat.id, plan_L_K in H by lia. lia.
Qed.
End threads.

(** ** The order of the threads' writes *)

Lemma run_thread_comm a p t1 t2 partial :
  th_k t1 ≠ th_k t2 →
  run_thread a p t1 partial ≫= run_thread a p t2 =
  run_thread a p t2 partial ≫= run_thread a p t1.
Proof.
  intros Hne. unfold run_thread.
  destruct (range a (th_L t1) (th_R t1)) as [r1|] eqn:E1,
           (range a (th_L t2) (th_R t2)) as [r2|] eqn:E2; simpl;
    repeat (case_decide; simpl; rewrite ?E1, ?E2, ?length_insert in *; simpl);
    try done; try lia.
  f_equal. apply list_insert_insert_ne. lia.
Qed.

(** Two orders of the same threads, each with a slot of its own, leave the
    same [partial]. *)
Lemma run_threads_schedule a p sched sched' partial :
  sched ≡ₚ sched' → NoDup (th_k <$> sched) →
  run_threads a p sched partial = run_threads a p sched' partial.
Proof.
  intros Hp. revert partial.
  induction Hp as [|t l l' Hp IH|t1 t2 l|l l' l'' Hp1 IH1 Hp2 IH2];
    intros partial Hnd.
  - done.
  - rewrite fmap_cons in Hnd. apply NoDup_cons in Hnd as [_ Hnd]. simpl.
    destruct (run_thread a p t partial); simpl; [by apply IH|done].
  - rewrite !fmap_cons in Hnd.
    apply NoDup_cons in Hnd as [Hne _].
    apply not_elem_of_cons in Hne as [Hne _]. simpl.
    transitivity ((run_thread a p t2 partial ≫= run_thread a p t1)
                    ≫= run_threads a p l);
      [by destruct (run_thread a p t2 partial)|].
    rewrite run_thread_comm by done.
    by destruct (run_thread a p t1 partial).
  - rewrite IH1 by done. apply IH2. by rewrite <-Hp1.
Qed.

Lemma spawn_slots n K : th_k <$> (spawn n K <$> seqZ 0 K) = seqZ 0 K.
Proof.
  rewrite <-list_fmap_compose. rewrite <-(list_fmap_id (seqZ 0 K)) at 2.
  by apply list_fmap_ext.
Qed.

(** ** C1, C2, C6, C9 *)

(** C2: for all N >= 0 and K >= 1 the plan has K ranges
    [floor(N*k/K), floor(N*(k+1)/K)); its boundaries do not decrease, a
    range ends where the next begins, two ranges do not overlap, every
    range lies in [0, N) and every index of [0, N) is in exactly one range.
    For N = 8 and K = 3 the ranges are [0,2), [2,5), [5,8), of sizes 2, 3, 3. *)
Theorem partition_plan_exact :
  (∀ N K, 0 ≤ N → 1 ≤ K →
     length (PartitionPlan N K) = Z.to_nat K ∧
     (∀ (k : nat) L R, PartitionPlan N K !! k = Some (L, R) →
        L = (N * Z.of_nat k) `div` K ∧ R = (N * (Z.of_nat k + 1)) `div` K ∧
        0 ≤ L ∧ L ≤ R ∧ R ≤ N) ∧
     (∀ (j k : nat) Lj Rj Lk Rk,
        PartitionPlan N K !! j = Some (Lj, Rj) →
        PartitionPlan N K !! k = Some (Lk, Rk) →
        (j ≤ k)%nat → Lj ≤ Lk ∧ Rj ≤ Rk) ∧
     (∀ (k : nat) L R L' R',
        PartitionPlan N K !! k = Some (L, R) →
        PartitionPlan N K !! S k = Some (L', R') → R = L') ∧
     (∀ (j k : nat) Lj Rj Lk Rk,
        PartitionPlan N K !! j = Some (Lj, Rj) →
        PartitionPlan N K !! k = Some (Lk, Rk) →
        (j < k)%nat → Rj ≤ Lk) ∧
     (∀ (k : nat) L R i,
        PartitionPlan N K !! k = Some (L, R) → L ≤ i < R → 0 ≤ i < N) ∧
     (∀ i, 0 ≤ i < N →
        ∃ (k : nat) L R,
          PartitionPlan N K !! k = Some (L, R) ∧ L ≤ i < R ∧
          ∀ (k' : nat) L' R',
            PartitionPlan N K !! k' = Some (L', R') → L' ≤ i < R' → k' = k)) ∧
  PartitionPlan 8 3 = [(0, 2); (2, 5); (5, 8)] ∧
  (λ r, r.2 - r.1) <$> PartitionPlan 8 3 = [2; 3; 3].
Proof.
  split; [|done]. intros N K HN HK.
  assert (Hb : ∀ (k : nat) L R, PartitionPlan N K !! k = Some (L, R) →
            0 ≤ L ∧ L ≤ R ∧ R ≤ N).
  { intros k L R (? & -> & ->)%lookup_PartitionPlan. rewrite plan_R_L.
    pose proof (plan_L_bounds N K (Z.of_nat k)).
    pose proof (plan_L_bounds N K (Z.of_nat k + 1)).
    pose proof (plan_L_mono N K (Z.of_nat k) (Z.of_nat k + 1)). lia. }
  assert (Hd : ∀ (j k : nat) Lj Rj Lk Rk,
            PartitionPlan N K !! j = Some (Lj, Rj) →
            PartitionPlan N K !! k = Some (Lk, Rk) →
            (j < k)%nat → Rj ≤ Lk).
  { intros j k Lj Rj Lk Rk (? & -> & ->)%lookup_PartitionPlan
      (? & -> & ->)%lookup_PartitionPlan Hjk.
    apply plan_disjoint; lia. }
  split_and!.
  - unfold PartitionPlan. by rewrite length_fmap, length_seqZ.
  - intros k L R Hk. destruct (Hb _ _ _ Hk) as (? & ? & ?).
    split_and!; try done.
    + apply lookup_PartitionPlan in Hk as (? & -> & _).
      apply plan_L_floor; lia.
    + apply lookup_PartitionPlan in Hk as (? & _ & ->).
      rewrite plan_R_L. apply plan_L_floor; lia.
  - intros j k Lj Rj Lk Rk (? & -> & ->)%lookup_PartitionPlan
      (? & -> & ->)%lookup_PartitionPlan Hjk.
    rewrite !plan_R_L. split; apply plan_L_mono; lia.
  - intros k L R L' R' (? & -> & ->)%lookup_PartitionPlan
      (? & -> & ->)%lookup_PartitionPlan.
    rewrite plan_R_L. f_equal. lia.
  - done.
  - intros k L R i Hk Hi. apply Hb in Hk. lia.
  - intros i Hi. destruct (plan_cover N K i) as (k & Hk & Hik); [lia|done|].
    assert (Hk0 : PartitionPlan N K !! Z.to_nat k
                  = Some (plan_L N K k, plan_R N K k)).
    { apply lookup_PartitionPlan. rewrite Z2Nat.id by lia. split; [lia|done]. }
    exists (Z.to_nat k), (plan_L N K k), (plan_R N K k).
    split; [done|]. split; [done|].
    intros k' L' R' Hk' Hi'.
    destruct (Nat.lt_total k' (Z.to_nat k)) as [Hlt|[->|Hgt]]; [|done|].
    + pose proof (Hd _ _ _ _ _ _ Hk' Hk0 Hlt). lia.
    + pose proof (Hd _ _ _ _ _ _ Hk0 Hk' Hgt). lia.
Qed.

Lemma partition_plan_exact_witness :
  length (PartitionPlan 8 3) = 3%nat.
Proof.
  apply (proj1 (proj1 partition_plan_exact 8 3 ltac:(lia) ltac:(lia))).
Defined.

Lemma spawned_threads a p K :
  1 < K →
  spawned (my_parallel_call a p K) =
    spawn (to_int (Z.of_nat (length a))) K <$> seqZ 0 K ∧
  my_parallel_cnt a p K =
    foldl Z.add 0 <$>
      run_threads a p (spawned (my_parallel_call a p K))
        (replicate (Z.to_nat K) 0).
Proof.
  intros HK. unfold my_parallel_cnt, my_parallel_call.
  by rewrite decide_False by lia.
Qed.

(** ** Threads that cannot be started *)

Lemma spawn_loop_all creates n K ks :
  (∀ k, k ∈ ks → creates k = true) →
  spawn_loop creates n K ks = (spawn n K <$> ks, true).
Proof.
  induction ks as [|k ks IH]; intros Hall; [done|].
  cbn [spawn_loop]. rewrite Hall by left.
  rewrite IH by (intros k' Hk'; apply Hall; by right). done.
Qed.

Lemma spawn_loop_failed creates n K ks k :
  k ∈ ks → creates k = false → (spawn_loop creates n K ks).2 = false.
Proof.
  induction ks as [|k' ks IH]; intros Hk Hno; [by apply elem_of_nil in Hk|].
  cbn [spawn_loop]. destruct (creates k') eqn:Hk'; [|done].
  cbn [snd]. apply IH; [|done].
  apply elem_of_cons in Hk as [->|Hk]; [congruence|done].
Qed.

Lemma spawn_loop_started creates n K ks :
  Forall (λ t, ∃ k, k ∈ ks ∧ t = spawn n K k) (spawn_loop creates n K ks).1.
Proof.
  induction ks as [|k ks IH]; [constructor|].
  cbn [spawn_loop]. destruct (creates k); [|constructor].
  cbn [fst]. constructor.
  - exists k. split; [left|done].
  - eapply Forall_impl; [exact IH|].
    intros t (k' & Hk' & ->). exists k'. split; [by right|done].
Qed.

(** Threads whose ranges are ranges of the vector and whose slots are slots
    of [partial] all write their slot. *)
Lemma run_threads_defined a p ths partial :
  Forall (λ t, is_Some (range a (th_L t) (th_R t)) ∧
               0 ≤ th_k t < Z.of_nat (length partial)) ths →
  is_Some (run_threads a p ths partial).
Proof.
  intros Hths. revert partial Hths.
  induction ths as [|t ths IH]; intros partial Hths; [by eexists|].
  apply Forall_cons in Hths as [[[r Hr] Hk] Hths].
  cbn [run_threads]. unfold run_thread at 1. rewrite Hr. cbn [mbind option_bind].
  rewrite decide_True by done. cbn [mbind option_bind].
  apply IH. by rewrite length_insert.
Qed.

Lemma my_parallel_cnt_on_started creates a p K :
  (1 < K → ∀ k, 0 ≤ k < K → creates k = true) →
  my_parallel_cnt_on creates a p K
  = match my_parallel_cnt a p K with
    | Some r => Returned r
    | None => Undefined
    end.
Proof.
  intros Hcr. unfold my_parallel_cnt_on, my_parallel_cnt, my_parallel_call.
  destruct (decide (K ≤ 1)) as [|HK]; [done|].
  rewrite spawn_loop_all
    by (intros k Hk%elem_of_seqZ; apply Hcr; lia).
  cbn [fst snd spawned returned].
  by destruct (run_threads a p _ _).
Qed.

Lemma my_parallel_cnt_on_terminated creates a p K k :
  Z.of_nat (length a) ≤ INT_MAX →
  1 < K → 0 ≤ k < K → creates k = false →
  my_parallel_cnt_on creates a p K = Terminated.
Proof.
  intros Ha HK Hk Hno. unfold my_parallel_cnt_on.
  rewrite decide_False by lia. cbv zeta.
  rewrite (spawn_loop_failed creates _ K (seqZ 0 K) k)
    by (done || apply elem_of_seqZ; lia).
  destruct (run_threads_defined a p
              (spawn_loop creates (to_int (Z.of_nat (length a))) K
                 (seqZ 0 K)).1 (replicate (Z.to_nat K) 0))
    as [partial ->]; [|done].
  eapply Forall_impl; [apply spawn_loop_started|].
  intros t (k' & Hk'%elem_of_seqZ & ->).
  rewrite n_to_int by done. split.
  - rewrite range_spawn by (done || lia). by eexists.
  - cbn [spawn th_k]. rewrite length_replicate. lia.
Qed.

(** C1: for every workload whose size the [int n] of my_parallel_cnt
    holds, every predicate and every K >= 1 whose threads are all started,
    my_parallel_cnt returns what seq_cnt returns, in whatever order the
    threads wrote their slots; when a thread of a call with K >= 2 cannot
    be started, the program is terminated and the call returns nothing;
    over [1,2,3,4,5,6] with the evenness test the sequential count and the
    partitioned counts for K = 1, 2, 3, 6 are all 3. *)
Theorem partitioned_equals_sequential :
  (∀ creates a p K,
     Z.of_nat (length a) ≤ INT_MAX → 1 ≤ K →
     (1 < K → ∀ k, 0 ≤ k < K → creates k = true) →
     my_parallel_cnt_on creates a p K = Returned (seq_cnt a p) ∧
     my_parallel_cnt a p K = Some (seq_cnt a p) ∧
     ∀ sched, sched ≡ₚ spawned (my_parallel_call a p K) → 1 < K →
       foldl Z.add 0 <$> run_threads a p sched (replicate (Z.to_nat K) 0)
       = Some (seq_cnt a p)) ∧
  (∀ creates a p K k,
     Z.of_nat (length a) ≤ INT_MAX →
     1 < K → 0 ≤ k < K → creates k = false →
     my_parallel_cnt_on creates a p K = Terminated) ∧
  seq_cnt [1; 2; 3; 4; 5; 6] pred_light = 3 ∧
  Forall (λ K, my_parallel_cnt [1; 2; 3; 4; 5; 6] pred_light K = Some 3 ∧
               my_parallel_cnt_on (λ _, true) [1; 2; 3; 4; 5; 6] pred_light K
               = Returned 3)
         [1; 2; 3; 6].
Proof.
  split_and!; [| |done|by repeat constructor].
  - intros creates a p K Ha HK Hcr.
    assert (Hcnt : my_parallel_cnt a p K = Some (seq_cnt a p))
      by (apply my_parallel_cnt_seq; lia).
    split_and!; [|done|].
    + by rewrite my_parallel_cnt_on_started, Hcnt.
    + intros sched Hp HK'.
      destruct (spawned_threads a p K HK') as [Hsp Hret].
      rewrite (run_threads_schedule a p sched _ _ Hp).
      * by rewrite <-Hret.
      * rewrite Hp, Hsp, spawn_slots. apply NoDup_seqZ.
  - intros creates a p K k. apply my_parallel_cnt_on_terminated.
Qed.

Lemma partitioned_equals_sequential_witness :
  my_parallel_cnt_on (λ _, true) [1; 2; 3; 4; 5; 6] pred_light 3
  = Returned (seq_cnt [1; 2; 3; 4; 5; 6] pred_light).
Proof.
  refine (proj1 (proj1 partitioned_equals_sequential
                   (λ _, true) [1; 2; 3; 4; 5; 6] pred_light 3 _ _ _)).
  - by vm_compute.
  - lia.
  - reflexivity.
Defined.

(** C6: for K <= 1 my_parallel_cnt creates no thread and returns
    seq_cnt(a, p). *)
Theorem degenerate_is_sequential a p K :
  K ≤ 1 →
  spawned (my_parallel_call a p K) = [] ∧
  my_parallel_cnt a p K = Some (seq_cnt a p).
Proof.
  intros HK. unfold my_parallel_cnt, my_parallel_call.
  by rewrite decide_True by done.
Qed.

Lemma degenerate_is_sequential_witness :
  spawned (my_parallel_call [1; 2; 3; 4; 5; 6] pred_light 1) = [] ∧
  my_parallel_cnt [1; 2; 3; 4; 5; 6] pred_light 1
  = Some (seq_cnt [1; 2; 3; 4; 5; 6] pred_light).
Proof. apply degenerate_is_sequential. lia. Defined.

(** C9: for a workload of n elements, n one that the [int n] of
    my_parallel_cnt holds, and K >= 2, every thread gets boundaries with
    0 <= L <= R <= n, so its iterator range is a valid (possibly empty)
    part of the vector; when K > n some thread has an empty range, which
    counts 0; and the sum is the sequential count. *)
Theorem workers_stay_in_range a p K :
  Z.of_nat (length a) ≤ INT_MAX → 2 ≤ K →
  (∀ t, t ∈ spawned (my_parallel_call a p K) →
     0 ≤ th_L t ∧ th_L t ≤ th_R t ∧ th_R t ≤ Z.of_nat (length a) ∧
     is_Some (range a (th_L t) (th_R t))) ∧
  (Z.of_nat (length a) < K →
     ∃ t, t ∈ spawned (my_parallel_call a p K) ∧ th_L t = th_R t ∧
          range a (th_L t) (th_R t) = Some [] ∧ count_if p [] = 0) ∧
  my_parallel_cnt a p K = Some (seq_cnt a p).
Proof.
  intros Ha HK.
  destruct (spawned_threads a p K) as [Hsp _]; [lia|].
  rewrite Hsp, n_to_int by done. split_and!.
  - intros t (k & -> & Hk%elem_of_seqZ)%list_elem_of_fmap.
    destruct (spawn_bounds a K Ha ltac:(lia) k) as (HL & HR & ? & ? & ?); [lia|].
    rewrite range_spawn by (done || lia). rewrite HL, HR. eauto.
  - intros Hn. destruct (empty_range_exists a K Ha ltac:(lia) Hn) as (k & Hk & He).
    destruct (spawn_bounds a K Ha ltac:(lia) k Hk) as (HL & HR & ? & ? & ?).
    exists (spawn (Z.of_nat (length a)) K k). split_and!.
    + apply list_elem_of_fmap. exists k. split; [done|]. apply elem_of_seqZ. lia.
    + by rewrite HL, HR.
    + rewrite range_spawn by (done || lia). by rewrite He, Z.sub_diag.
    + done.
  - apply my_parallel_cnt_seq; [done|lia].
Qed.

Lemma workers_stay_in_range_witness :
  my_parallel_cnt [1; 2; 3; 4; 5; 6] pred_light 8
  = Some (seq_cnt [1; 2; 3; 4; 5; 6] pred_light).
Proof.
  refine (proj2 (proj2 (workers_stay_in_range
                          [1; 2; 3; 4; 5; 6] pred_light 8 _ _))).
  - by vm_compute.
  - lia.
Defined.

(** ** Best-K tracking *)

(** From any starting pair, the fold either keeps it, no observation being
    strictly below it, or ends on the first observation of least time. *)
Lemma foldl_best_step obs b :
  (foldl best_step b obs = b ∧ ∀ o, o ∈ obs → (b.1 ≤ o.2)%Qc) ∨
  (∃ (i : nat) K t,
     obs !! i = Some (K, t) ∧ foldl best_step b obs = (t, K) ∧ (t < b.1)%Qc ∧
     (∀ (j : nat) o, obs !! j = Some o → (t ≤ o.2)%Qc) ∧
     (∀ (j : nat) o, obs !! j = Some o → (j < i)%nat → (t < o.2)%Qc)).
Proof.
  revert b. induction obs as [|[K0 t0] obs IH]; intros b.
  { left. split; [done|]. intros o Ho. by apply elem_of_nil in Ho. }
  simpl. destruct (decide (t0 < b.1)%Qc) as [Hlt|Hlt].
  - assert (best_step b (K0, t0) = (t0, K0)) as ->
      by (unfold best_step; simpl; by rewrite decide_True).
    destruct (IH (t0, K0)) as [[-> Hall]|(i & K & t & Hi & -> & Ht & Hle & Hfirst)];
      right.
    + exists 0%nat, K0, t0. split_and!; try done; [|intros; lia].
      intros [|j] o Ho; simplify_eq/=; [done|].
      apply (Hall o). by eapply list_elem_of_lookup_2.
    + exists (S i), K, t. simpl in Ht. split_and!; try done.
      * by transitivity t0.
      * intros [|j] o Ho; simplify_eq/=; [by apply Qclt_le_weak|by eapply Hle].
      * intros [|j] o Ho Hj; simplify_eq/=; [done|]. eapply Hfirst; [done|lia].
  - assert (best_step b (K0, t0) = b) as ->
      by (unfold best_step; simpl; by rewrite decide_False).
    apply Qcnot_lt_le in Hlt.
    destruct (IH b) as [[-> Hall]|(i & K & t & Hi & -> & Ht & Hle & Hfirst)].
    + left. split; [done|]. intros o [->|Ho]%elem_of_cons; [done|by apply Hall].
    + right. exists (S i), K, t. split_and!; try done.
      * intros [|j] o Ho; simplify_eq/=; [|by eapply Hle].
        apply Qclt_le_weak. by eapply Qclt_le_trans.
      * intros [|j] o Ho Hj; simplify_eq/=; [by eapply Qclt_le_trans|].
        eapply Hfirst; [done|lia].
Qed.

(** C4: over the observations (K, time) of a sweep, one of which at least
    is below the initial 1e300 as every measured time is, the driver ends
    with the K and the time of the first observation whose time is the
    least: no time is smaller and every earlier time is strictly greater;
    on [(1,50), (2,30), (4,12), (8,15)] it ends with K = 4 and 12. *)
Theorem best_is_first_minimum :
  (∀ obs, Exists (λ o, (o.2 < bestT_init)%Qc) obs →
     ∃ (i : nat) K t,
       obs !! i = Some (K, t) ∧ track_best obs = (t, K) ∧
       (∀ (j : nat) o, obs !! j = Some o → (t ≤ o.2)%Qc) ∧
       (∀ (j : nat) o, obs !! j = Some o → (j < i)%nat → (t < o.2)%Qc)) ∧
  track_best [(1, Qc_of_Z 50); (2, Qc_of_Z 30); (4, Qc_of_Z 12); (8, Qc_of_Z 15)]
  = (Qc_of_Z 12, 4).
Proof.
  split; [|by vm_compute].
  intros obs (o & Ho & Hlt)%Exists_exists. unfold track_best.
  destruct (foldl_best_step obs (bestT_init, bestK_init))
    as [[_ Hall]|(i & K & t & ? & ? & _ & ? & ?)].
  - apply Hall in Ho. simpl in Ho. by apply Qcle_not_lt in Ho.
  - by exists i, K, t.
Qed.

Lemma best_is_first_minimum_witness :
  ∃ (i : nat) K t,
    [(1, Qc_of_Z 50); (2, Qc_of_Z 12); (4, Qc_of_Z 12)] !! i = Some (K, t) ∧
    track_best [(1, Qc_of_Z 50); (2, Qc_of_Z 12); (4, Qc_of_Z 12)] = (t, K) ∧
    (∀ (j : nat) o,
       [(1, Qc_of_Z 50); (2, Qc_of_Z 12); (4, Qc_of_Z 12)] !! j = Some o →
       (t ≤ o.2)%Qc) ∧
    (∀ (j : nat) o,
       [(1, Qc_of_Z 50); (2, Qc_of_Z 12); (4, Qc_of_Z 12)] !! j = Some o →
       (j < i)%nat → (t < o.2)%Qc).
Proof.
  apply (proj1 best_is_first_minimum).
  apply Exists_cons_hd. by vm_compute.
Defined.

(** ** measure *)

Lemma least_le x l y : y ∈ x :: l → (least x l ≤ y)%Qc.
Proof.
  unfold least. induction l as [|z l IH]; simpl.
  - intros ->%list_elem_of_singleton. done.
  - intros Hy. unfold Qc_min at 1. case_decide as Hz.
    + apply elem_of_cons in Hy as [->|[->|Hy]%elem_of_cons].
      * etrans; [done|]. apply IH. left.
      * done.
      * etrans; [done|]. apply IH. by right.
    + apply Qcnot_le_lt, Qclt_le_weak in Hz.
      apply elem_of_cons in Hy as [->|[->|Hy]%elem_of_cons].
      * apply IH. left.
      * done.
      * apply IH. by right.
Qed.

Lemma greatest_ge x l y : y ∈ x :: l → (y ≤ greatest x l)%Qc.
Proof.
  unfold greatest. induction l as [|z l IH]; simpl.
  - intros ->%list_elem_of_singleton. done.
  - intros Hy. unfold Qc_max at 1. case_decide as Hz.
    + apply elem_of_cons in Hy as [->|[->|Hy]%elem_of_cons].
      * apply IH. left.
      * done.
      * apply IH. by right.
    + apply Qcnot_le_lt, Qclt_le_weak in Hz.
      apply elem_of_cons in Hy as [->|[->|Hy]%elem_of_cons].
      * etrans; [|done]. apply IH. left.
      * done.
      * etrans; [|done]. apply IH. by right.
Qed.

Lemma least_elem x l : least x l ∈ x :: l.
Proof.
  unfold least. induction l as [|z l IH]; simpl; [left|].
  unfold Qc_min at 1. case_decide; [right; left|].
  apply elem_of_cons in IH as [->|IH]; [left|by do 2 right].
Qed.

Lemma greatest_elem x l : greatest x l ∈ x :: l.
Proof.
  unfold greatest. induction l as [|z l IH]; simpl; [left|].
  unfold Qc_max at 1. case_decide; [|right; left].
  apply elem_of_cons in IH as [->|IH]; [left|by do 2 right].
Qed.

(** The middle of the sorted samples exists as soon as there is a sample,
    and is one of them. *)
Lemma median_defined (t : list Qc) :
  t ≠ [] →
  ∃ v, merge_sort Qcle t !! (length (merge_sort Qcle t) / 2)%nat = Some v ∧
       v ∈ t.
Proof.
  intros Ht. pose proof (merge_sort_Permutation Qcle t) as Hp.
  destruct (lookup_lt_is_Some_2 (merge_sort Qcle t)
              (length (merge_sort Qcle t) / 2)%nat) as [v Hv].
  - apply Nat.div_lt; [|lia]. rewrite Hp. destruct t; [done|simpl; lia].
  - exists v. split; [done|]. rewrite <-Hp. by eapply list_elem_of_lookup_2.
Qed.

Section measure_facts.
Context {S : Type} (now : S → Qc * S) (fn : M S ()).
Hypothesis fn_returns : ∀ s, ∃ s', fn s = Val () s'.

(** [i] turns of the loop enter [fn] [i] times and push [i] samples. *)
Lemma measure_loop_returns i t s c :
  ∃ t' s',
    length t' = i ∧
    measure_loop now fn i t s = Val (t ++ t') s' ∧
    measure_loop (uncounted now) (counted fn) i t (s, c)
    = Val (t ++ t') (s', (c + i)%nat).
Proof.
  revert t s c. induction i as [|i IH]; intros t s c.
  - exists [], s. by rewrite app_nil_r, Nat.add_0_r.
  - simpl. unfold mbind, M_bind, read_clock, uncounted, counted. simpl.
    destruct (now s) as [t0 s0]. destruct (fn_returns s0) as [s1 ->].
    destruct (now s1) as [t1 s2].
    destruct (IH (t ++ [(t1 - t0)%Qc]) s2 (Datatypes.S c))
      as (t' & s' & Hlen & Hplain & Hcount).
    exists ((t1 - t0)%Qc :: t'), s'. rewrite <-!app_assoc in *. simpl in *.
    split_and!; [by f_equal|done|].
    unfold mbind, M_bind, read_clock, uncounted, counted in Hcount.
    rewrite Hcount. do 2 f_equal. lia.
Qed.

Lemma measure_returns R s c :
  1 ≤ R →
  ∃ t s' v,
    measure_loop (uncounted now) (counted fn) (Z.to_nat R) [] (s, c)
    = Val t (s', (c + Z.to_nat R)%nat) ∧
    length t = Z.to_nat R ∧
    merge_sort Qcle t !! (Z.to_nat R / 2)%nat = Some v ∧ v ∈ t ∧
    measure (uncounted now) (counted fn) R (s, c)
    = Val v (s', (c + Z.to_nat R)%nat) ∧
    measure now fn R s = Val v s'.
Proof.
  intros HR.
  destruct (measure_loop_returns (Z.to_nat R) [] s c)
    as (t & s' & Hlen & Hplain & Hcount). simpl in *.
  destruct (median_defined t) as (v & Hv & Hin).
  { intros ->. simpl in Hlen. lia. }
  exists t, s', v.
  assert (length (merge_sort Qcle t) = Z.to_nat R) as Hlen'
    by by rewrite (merge_sort_Permutation Qcle t).
  unfold measure, mbind, M_bind. rewrite Hcount, Hplain, Hv.
  rewrite Hlen' in Hv. by split_and!.
Qed.
End measure_facts.

(** C3, as the code has it: for every operation that returns and every
    repeat count R >= 1, measure enters the operation exactly R times,
    pushes R samples, sorts them and returns the sample at the middle index
    R/2 of the sorted vector; that value lies between the least and the
    greatest sample.  The ghost counter of [counted] changes nothing to the
    value returned. *)
Theorem measure_median {S} (now : S → Qc * S) (fn : M S ()) (R : Z)
    (s : S) (c : nat) :
  1 ≤ R → (∀ s, ∃ s', fn s = Val () s') →
  ∃ t s' v,
    measure_loop (uncounted now) (counted fn) (Z.to_nat R) [] (s, c)
    = Val t (s', (c + Z.to_nat R)%nat) ∧
    length t = Z.to_nat R ∧
    measure (uncounted now) (counted fn) R (s, c)
    = Val v (s', (c + Z.to_nat R)%nat) ∧
    measure now fn R s = Val v s' ∧
    Sorted Qcle (merge_sort Qcle t) ∧ merge_sort Qcle t ≡ₚ t ∧
    merge_sort Qcle t !! (Z.to_nat R / 2)%nat = Some v ∧
    ∃ x l, t = x :: l ∧ (least x l ≤ v)%Qc ∧ (v ≤ greatest x l)%Qc ∧
           least x l ∈ t ∧ greatest x l ∈ t.
Proof.
  intros HR Hfn.
  destruct (measure_returns now fn Hfn R s c HR)
    as (t & s' & v & Hloop & Hlen & Hv & Hin & Hm & Hm').
  exists t, s', v. split_and!; try done.
  - apply Sorted_merge_sort, _.
  - apply merge_sort_Permutation.
  - destruct t as [|x l]; [by apply elem_of_nil in Hin|].
    exists x, l. split_and!; [done|by apply least_le|by apply greatest_ge
                            |apply least_elem|apply greatest_elem].
Qed.

Lemma measure_median_witness :
  ∃ t s' v,
    measure_loop (uncounted toy_now) (counted (mret ())) (Z.to_nat 7) []
      (0%nat, 0%nat)
    = Val t (s', (0 + Z.to_nat 7)%nat) ∧
    length t = Z.to_nat 7 ∧
    measure (uncounted toy_now) (counted (mret ())) 7 (0%nat, 0%nat)
    = Val v (s', (0 + Z.to_nat 7)%nat) ∧
    measure toy_now (mret ()) 7 0%nat = Val v s' ∧
    Sorted Qcle (merge_sort Qcle t) ∧ merge_sort Qcle t ≡ₚ t ∧
    merge_sort Qcle t !! (Z.to_nat 7 / 2)%nat = Some v ∧
    ∃ x l, t = x :: l ∧ (least x l ≤ v)%Qc ∧ (v ≤ greatest x l)%Qc ∧
           least x l ∈ t ∧ greatest x l ∈ t.
Proof.
  apply (measure_median toy_now (mret ()) 7 0%nat 0%nat).
  - lia.
  - intros s. by exists s.
Defined.

(** C3 as stated fails for the repeat count 0: the loop is not entered, no
    sample is pushed, and [t[t.size() / 2]] reads an empty vector. *)
Lemma measure_zero_repeats :
  measure_loop toy_now (mret ()) (Z.to_nat 0) [] 0%nat = Val [] 0%nat ∧
  measure toy_now (mret ()) 0 0%nat = Undef.
Proof. done. Qed.

(** ** The candidate thread counts *)

Lemma unique_elem x l : x ∈ unique l ↔ x ∈ l.
Proof.
  induction l as [|y [|z l] IH]; [done|done|].
  change (unique (y :: z :: l))
    with (if decide (y = z) then unique (z :: l) else y :: unique (z :: l)).
  case_decide as Hyz.
  - subst z. rewrite IH, !elem_of_cons. tauto.
  - rewrite elem_of_cons, IH. by rewrite (elem_of_cons (z :: l)).
Qed.

Lemma unique_sorted l :
  StronglySorted Z.le l → StronglySorted Z.lt (unique l).
Proof.
  induction l as [|y [|z l] IH]; intros Hs.
  - constructor.
  - repeat constructor.
  - change (unique (y :: z :: l))
      with (if decide (y = z) then unique (z :: l) else y :: unique (z :: l)).
    apply StronglySorted_inv in Hs as [Hs Hy].
    case_decide as Hyz; [by apply IH|].
    constructor; [by apply IH|].
    apply Forall_forall. intros x Hx.
    apply (proj1 (unique_elem x (z :: l))) in Hx.
    apply StronglySorted_inv in Hs as [_ Hz].
    apply Forall_cons in Hy as [Hyz' _].
    apply elem_of_cons in Hx as [->|Hx]; [lia|].
    rewrite Forall_forall in Hz. specialize (Hz x Hx). lia.
Qed.

(** With [4 * hw] in the range of [int] nothing overflows, and the loop
    started at [k = 2 ^ j] stops by its guard: it pushes the powers of two
    from [k] up to [2 * hw]. *)
Lemma push_powers_spec fuel hw j Ks :
  1 ≤ hw → 4 * hw ≤ INT_MAX → 1 ≤ j → (1 ≤ fuel)%nat →
  2 * hw < 2 ^ (j + Z.of_nat fuel - 1) →
  ∃ Ks', push_powers fuel hw (2 ^ j) Ks = Some (Ks ++ Ks') ∧
         ∀ x, x ∈ Ks' ↔ ∃ i, j ≤ i ∧ x = 2 ^ i ∧ x ≤ 2 * hw.
Proof.
  intros Hhw Hmax. revert j Ks.
  induction fuel as [|fuel IH]; intros j Ks Hj Hf Hpow; [lia|].
  simpl. rewrite decide_False by (unfold INT_MIN, INT_MAX in *; lia).
  case_decide as Hk.
  - rewrite decide_False by (unfold INT_MAX in *; lia).
    assert (1 ≤ fuel)%nat as Hf'.
    { destruct fuel; [|lia]. replace (j + Z.of_nat 1 - 1) with j in Hpow by lia.
      lia. }
    replace (2 ^ j * 2) with (2 ^ (j + 1))
      by (rewrite Z.pow_add_r by lia; lia).
    destruct (IH (j + 1) (Ks ++ [2 ^ j])) as (Ks' & -> & HKs'); [lia|done| |].
    { by replace (j + 1 + Z.of_nat fuel - 1)
        with (j + Z.of_nat (Datatypes.S fuel) - 1) by lia. }
    exists (2 ^ j :: Ks'). rewrite <-app_assoc. split; [done|].
    intros x. rewrite elem_of_cons, HKs'. split.
    + intros [->|(i & ? & ? & ?)]; [exists j|exists i]; split_and!; (done || lia).
    + intros (i & Hi & -> & Hle). destruct (decide (i = j)) as [->|]; [by left|].
      right. exists i. split_and!; (done || lia).
  - exists []. rewrite app_nil_r. split; [done|].
    intros x. split; [by intros ?%elem_of_nil|].
    intros (i & Hi & -> & Hle). exfalso.
    assert (2 ^ j ≤ 2 ^ i) by (apply Z.pow_le_mono_r; lia). lia.
Qed.

(** The loop as [main] enters it, with [k = 2] and the constants in [Ks]:
    32 turns are enough. *)
Lemma push_powers_main H :
  1 ≤ H → 4 * H ≤ INT_MAX →
  ∃ Ks', push_powers 32 H 2 small_Ks = Some (small_Ks ++ Ks') ∧
         ∀ x, x ∈ Ks' ↔ ∃ i, 1 ≤ i ∧ x = 2 ^ i ∧ x ≤ 2 * H.
Proof.
  intros HH Hmax.
  destruct (push_powers_spec 32 H 1 small_Ks) as (Ks' & Hpush & HKs');
    [done|done|lia|lia| |].
  { replace (1 + Z.of_nat 32 - 1) with 32 by lia. unfold INT_MAX in Hmax. lia. }
  change (2 ^ 1) with 2 in Hpush. by exists Ks'.
Qed.

(** C5, as the code has it: for a hardware parallelism H >= 1 (with 4 * H
    in the range of int, so that the loop does not overflow) the candidate
    list is ascending without repetition and holds exactly the constants
    1, 2, 4, 8, 16, 32, 64 and the powers of two from 2 up to twice H. *)
Theorem candidate_Ks_powers_of_two H :
  1 ≤ H → 4 * H ≤ INT_MAX →
  ∃ Ks, candidate_Ks H = Some Ks ∧ StronglySorted Z.lt Ks ∧
        ∀ x, x ∈ Ks ↔ x ∈ small_Ks ∨ ∃ i, 1 ≤ i ∧ x = 2 ^ i ∧ x ≤ 2 * H.
Proof.
  intros HH Hmax.
  destruct (push_powers_main H HH Hmax) as (Ks' & Hpush & HKs').
  exists (unique (merge_sort Z.le (small_Ks ++ Ks'))).
  split; [unfold candidate_Ks; by rewrite Hpush|]. split.
  - apply unique_sorted, StronglySorted_merge_sort; apply _.
  - intros x. rewrite unique_elem, merge_sort_Permutation, elem_of_app.
    by rewrite HKs'.
Qed.

Lemma candidate_Ks_powers_of_two_witness :
  ∃ Ks, candidate_Ks 256 = Some Ks ∧ StronglySorted Z.lt Ks ∧
        ∀ x, x ∈ Ks ↔ x ∈ small_Ks ∨ ∃ i, 1 ≤ i ∧ x = 2 ^ i ∧ x ≤ 2 * 256.
Proof. apply candidate_Ks_powers_of_two; unfold INT_MAX; lia. Defined.

(** C5 as stated fails for H = 3: the loop pushes 2 and 4, which the
    constants already hold, and neither 3 nor 6. *)
Lemma candidate_Ks_not_multiples :
  candidate_Ks 3 = Some [1; 2; 4; 8; 16; 32; 64] ∧
  spec_Ks 3 = [1; 2; 3; 4; 6; 8; 16; 32; 64] ∧
  candidate_Ks 3 ≠ Some (spec_Ks 3).
Proof. done. Qed.

(** ** The sweep of main *)

(** A measured call that returns and leaves the world as it is: the samples
    depend on the clock alone. *)
Lemma measure_loop_world pl i c :
  ∃ t', length t' = i ∧
    ∀ fn t o, (∀ w, fn w = Val () w) →
      measure_loop (now pl) fn i t (World c o)
      = Val (t ++ t') (World (c + 2 * i) o).
Proof.
  revert c. induction i as [|i IH]; intros c.
  - exists []. split; [done|]. intros fn t o _. simpl.
    by rewrite app_nil_r, Nat.add_0_r.
  - destruct (IH (S (S c))) as (t' & Hlen & Hrun).
    exists ((steady_clock pl (S c) - steady_clock pl c)%Qc :: t').
    split; [simpl; by f_equal|]. intros fn t o Hfn.
    specialize (Hrun fn (t ++ [(steady_clock pl (S c) - steady_clock pl c)%Qc])
                  o Hfn).
    simpl. unfold mbind, M_bind, read_clock, now in *. simpl. rewrite Hfn. simpl.
    rewrite Hrun, <-app_assoc. do 2 f_equal. lia.
Qed.

Lemma measure_world pl R c :
  1 ≤ R →
  ∃ v, ∀ fn o, (∀ w, fn w = Val () w) →
    measure (now pl) fn R (World c o)
    = Val v (World (c + 2 * Z.to_nat R) o).
Proof.
  intros HR. destruct (measure_loop_world pl (Z.to_nat R) c) as (t' & Hlen & Hrun).
  destruct (median_defined t') as (v & Hv & _).
  { intros ->. simpl in Hlen. lia. }
  exists v. intros fn o Hfn. specialize (Hrun fn [] o Hfn). simpl in Hrun.
  unfold measure, mbind, M_bind. by rewrite Hrun, Hv.
Qed.

Lemma sweep_world pl Ks c :
  ∃ ts, length ts = length Ks ∧
    ∀ cnt (res : Z → Z) rs best o, (∀ K w, cnt K w = Val (res K) w) →
      sweep pl cnt rs Ks best (World c o)
      = Val (foldl best_step best (zip Ks ts),
             zip_with (λ K t, (K, res K, t)) Ks ts)
            (World (c + 14 * length Ks) (o ++ sweep_lines res rs Ks ts)).
Proof.
  revert c. induction Ks as [|K Ks IH]; intros c.
  - exists []. split; [done|]. intros cnt res rs best o _. simpl.
    unfold sweep_lines. simpl. by rewrite app_nil_r, Nat.add_0_r.
  - destruct (measure_world pl 7 c) as (v & Hv); [lia|].
    destruct (IH (c + 14)%nat) as (ts & Hlen & Hrun).
    exists (v :: ts). split; [simpl; by f_equal|].
    intros cnt res rs best o Hcnt.
    assert (Hpure : ∀ w, discard (cnt K) w = Val () w).
    { intros w. unfold discard, mbind, M_bind. by rewrite Hcnt. }
    specialize (Hv (discard (cnt K)) o Hpure).
    change (c + 2 * Z.to_nat 7)%nat with (c + 14)%nat in Hv.
    simpl. unfold mbind, M_bind, sweep_body. unfold mbind, M_bind.
    rewrite Hcnt, Hv.
    pose proof (Hrun cnt res rs (best_step best (K, v))) as Hrun'.
    unfold sweep_lines. simpl. case_decide; simpl.
    + rewrite (Hrun' _ Hcnt). do 2 f_equal; [lia|].
      rewrite <-!app_assoc. done.
    + rewrite (Hrun' _ Hcnt). do 2 f_equal; [lia|].
      rewrite <-!app_assoc. done.
Qed.

Lemma sweep_lines_cons res rs K Ks t ts :
  sweep_lines res rs (K :: Ks) (t :: ts)
  = (if decide (res K ≠ rs) then [ErrorAt K] else [])
    ++ KTime K t :: sweep_lines res rs Ks ts.
Proof. unfold sweep_lines. simpl. by rewrite <-app_assoc. Qed.

Lemma sweep_lines_error res rs Ks ts K :
  length ts = length Ks →
  ErrorAt K ∈ sweep_lines res rs Ks ts ↔ K ∈ Ks ∧ res K ≠ rs.
Proof.
  revert ts. induction Ks as [|K' Ks IH]; intros [|t ts] Hlen; try done.
  - split; [by intros ?%elem_of_nil|by intros [?%elem_of_nil _]].
  - rewrite sweep_lines_cons, elem_of_app, !elem_of_cons, IH
      by (simpl in Hlen; lia).
    case_decide as Hres.
    + rewrite list_elem_of_singleton. split.
      * intros [[= ->]|[[=]|[??]]]; auto.
      * intros [[->|?] ?]; auto.
    + split.
      * intros [[]%elem_of_nil|[[=]|[??]]]; auto.
      * intros [[->|?] ?]; [done|auto].
Qed.

Lemma sweep_lines_time res rs Ks ts K t :
  KTime K t ∈ sweep_lines res rs Ks ts ↔ (K, t) ∈ zip Ks ts.
Proof.
  revert ts. induction Ks as [|K' Ks IH]; intros [|t' ts];
    try (split; by intros ?%elem_of_nil).
  rewrite sweep_lines_cons, elem_of_app, !elem_of_cons, IH. simpl.
  rewrite elem_of_cons. case_decide.
  - rewrite list_elem_of_singleton. split.
    + intros [[=]|[[= -> ->]|?]]; auto.
    + intros [[= -> ->]|?]; auto.
  - split.
    + intros [[]%elem_of_nil|[[= -> ->]|?]]; auto.
    + intros [[= -> ->]|?]; auto.
Qed.

Lemma sweep_lines_agree rs Ks ts :
  sweep_lines (λ _, rs) rs Ks ts = zip_with KTime Ks ts.
Proof.
  revert ts. induction Ks as [|K Ks IH]; intros [|t ts]; try done.
  rewrite sweep_lines_cons, IH. by rewrite decide_False by (by intros ?).
Qed.

(** C7: whatever counts [res K] the counter returns, the sweep goes through
    the whole of [Ks]: every K gets its row and its timing line, an error
    line stands before the timing line of exactly those K whose count
    differs from the baseline, and the times and the best pair are those of
    the sweep in which no count differs. *)
Theorem sweep_continues_after_violation pl (res : Z → Z) rs Ks best w :
  ∃ ts w' w0,
    length ts = length Ks ∧
    sweep pl (λ K, mret (res K)) rs Ks best w
    = Val (foldl best_step best (zip Ks ts),
           zip_with (λ K t, (K, res K, t)) Ks ts) w' ∧
    out w' = out w ++ sweep_lines res rs Ks ts ∧
    (∀ K, ErrorAt K ∈ sweep_lines res rs Ks ts ↔ K ∈ Ks ∧ res K ≠ rs) ∧
    (∀ K t, KTime K t ∈ sweep_lines res rs Ks ts ↔ (K, t) ∈ zip Ks ts) ∧
    sweep pl (λ _, mret rs) rs Ks best w
    = Val (foldl best_step best (zip Ks ts),
           zip_with (λ K t, (K, rs, t)) Ks ts) w0 ∧
    out w0 = out w ++ zip_with KTime Ks ts.
Proof.
  destruct w as [c o]. destruct (sweep_world pl Ks c) as (ts & Hlen & Hrun).
  exists ts. eexists. eexists. split; [done|].
  split; [by apply (Hrun (λ K, mret (res K)) res)|]. split; [done|].
  split; [intros K; by apply sweep_lines_error|].
  split; [intros K t; by apply sweep_lines_time|].
  split; [by apply (Hrun (λ _, mret rs) (λ _, rs))|].
  simpl. by rewrite sweep_lines_agree.
Qed.

(** ** The policy blocks *)

(** A measured call that returns or throws, and leaves the world as it is:
    measure returns or lets the exception through; nothing is printed. *)
Lemma measure_loop_throwing pl fn i t c o :
  (∀ w, fn w = Val () w ∨ fn w = Exn w) →
  (∃ t' c', measure_loop (now pl) fn i t (World c o) = Val (t ++ t') (World c' o)
            ∧ length t' = i) ∨
  (∃ c', measure_loop (now pl) fn i t (World c o) = Exn (World c' o)).
Proof.
  intros Hfn. revert t c. induction i as [|i IH]; intros t c.
  - left. exists [], c. by rewrite app_nil_r.
  - simpl. unfold mbind, M_bind, read_clock, now in *. simpl.
    destruct (Hfn (World (S c) o)) as [-> | ->]; [|right; by eexists].
    simpl.
    destruct (IH (t ++ [(steady_clock pl (S c) - steady_clock pl c)%Qc])
                (S (S c))) as [(t' & c' & -> & Hlen)|(c' & ->)].
    + left. eexists (_ :: t'), c'. rewrite <-app_assoc. simpl. by rewrite Hlen.
    + right. by exists c'.
Qed.

Lemma measure_throwing pl fn R c o :
  1 ≤ R → (∀ w, fn w = Val () w ∨ fn w = Exn w) →
  (∃ v c', measure (now pl) fn R (World c o) = Val v (World c' o)) ∨
  (∃ c', measure (now pl) fn R (World c o) = Exn (World c' o)).
Proof.
  intros HR Hfn. unfold measure, mbind, M_bind.
  destruct (measure_loop_throwing pl fn (Z.to_nat R) [] c o Hfn)
    as [(t' & c' & Hrun & Hlen)|(c' & ->)]; [|right; by exists c'].
  simpl in Hrun. rewrite Hrun.
  destruct (median_defined t') as (v & -> & _).
  { intros ->. simpl in Hlen. lia. }
  left. by exists v, c'.
Qed.

Lemma throwing_quiet {A} (f : nat → option A) w :
  discard (throwing f) w = Val () w ∨ discard (throwing f) w = Exn w.
Proof.
  unfold discard, mbind, M_bind, throwing.
  destruct (f (clock_reads w)); auto.
Qed.

(** Whatever the library does, a policy block returns, having printed one
    line: the time, or that the policy is not supported. *)
Lemma policy_block_returns pl (f : nat → option Z) rs ok ko c o :
  ∃ r c' l,
    policy_block pl (throwing f) rs ok ko (World c o)
    = Val r (World c' (o ++ [l])) ∧
    (l = ko ∨ l = ok r.2).
Proof.
  unfold policy_block. unfold throwing at 1. simpl.
  destruct (f c) as [r|]; [|by eexists _, _, _; split; [done|left]].
  destruct (measure_throwing pl (discard (throwing f)) 7 c o)
    as [(v & c' & ->)|(c' & ->)]; [lia|apply throwing_quiet|..].
  - eexists _, _, _. split; [done|by right].
  - eexists _, _, _. split; [done|by left].
Qed.

(** When the first call of the policy throws, the block prints that the
    policy is not supported and ends with its locals as they were set:
    the baseline count and the time -1. *)
Lemma policy_block_unsupported pl (f : nat → option Z) rs ok ko w :
  f (clock_reads w) = None →
  policy_block pl (throwing f) rs ok ko w
  = Val (rs, (-1)%Qc) (World (clock_reads w) (out w ++ [ko])).
Proof. intros Hf. unfold policy_block, throwing. by rewrite Hf. Qed.

(** An exception of a later call, inside measure, ends in the same handler;
    the count that the first call returned stays in the result variable. *)
Lemma policy_block_late_throw pl (f : nat → option Z) rs ok ko c o r :
  f c = Some r → f (S c) = None →
  policy_block pl (throwing f) rs ok ko (World c o)
  = Val (r, (-1)%Qc) (World (S c) (o ++ [ko])).
Proof.
  intros Hfirst Hlater. unfold policy_block. unfold throwing at 1. simpl.
  rewrite Hfirst.
  assert (measure (now pl) (discard (throwing f)) 7 (World c o)
          = Exn (World (S c) o)) as ->; [|done].
  unfold measure, mbind, M_bind. simpl.
  unfold mbind, M_bind, read_clock, now, discard, throwing. simpl.
  unfold mbind, M_bind. simpl. by rewrite Hlater.
Qed.

(** ** One turn of the predicate loop *)

Lemma my_parallel_cnt_total a p K :
  Z.of_nat (length a) ≤ INT_MAX →
  my_parallel_cnt a p K = Some (seq_cnt a p).
Proof.
  intros Ha. destruct (decide (K ≤ 1)) as [HK|HK].
  - unfold my_parallel_cnt, my_parallel_call. by rewrite decide_True.
  - apply my_parallel_cnt_seq; [done|lia].
Qed.

Lemma hw_in_range pl :
  0 ≤ hardware_concurrency pl → 4 * hardware_concurrency pl ≤ INT_MAX →
  1 ≤ to_int (Z.max 1 (hardware_concurrency pl)) ∧
  4 * to_int (Z.max 1 (hardware_concurrency pl)) ≤ INT_MAX.
Proof.
  intros. rewrite to_int_id; unfold INT_MIN, INT_MAX in *; lia.
Qed.

Lemma custom_block_world pl cnt (res : Z → Z) rs c o :
  0 ≤ hardware_concurrency pl → 4 * hardware_concurrency pl ≤ INT_MAX →
  (∀ K w, cnt K w = Val (res K) w) →
  ∃ Ks ts,
    candidate_Ks (to_int (Z.max 1 (hardware_concurrency pl))) = Some Ks ∧
    length ts = length Ks ∧
    custom_block pl cnt rs (World c o)
    = Val (Ks, (track_best (zip Ks ts), zip_with (λ K t, (K, res K, t)) Ks ts))
          (World (c + 14 * length Ks)
             (o ++ [CustomHeader] ++ sweep_lines res rs Ks ts
                ++ [BestK (track_best (zip Ks ts)).2 (track_best (zip Ks ts)).1
                      (to_int (Z.max 1 (hardware_concurrency pl)))])).
Proof.
  intros Hhc Hmax Hcnt. destruct (hw_in_range pl Hhc Hmax) as [Hhw Hhw'].
  destruct (push_powers_main _ Hhw Hhw') as (Ks' & Hpush & _).
  assert (∃ Ks, candidate_Ks (to_int (Z.max 1 (hardware_concurrency pl)))
                = Some Ks) as [Ks HKs].
  { eexists. unfold candidate_Ks. by rewrite Hpush. }
  destruct (sweep_world pl Ks c) as (ts & Hlen & Hrun).
  exists Ks, ts. split; [done|]. split; [done|].
  unfold custom_block, mbind, M_bind, print, defined. simpl.
  rewrite HKs. simpl. unfold track_best.
  rewrite (Hrun cnt res rs _ _ Hcnt). simpl. by rewrite <-!app_assoc.
Qed.

Lemma pred_block_world pl a name pred c o :
  Z.of_nat (length a) ≤ INT_MAX →
  0 ≤ hardware_concurrency pl → 4 * hardware_concurrency pl ≤ INT_MAX →
  ∃ r c' t_seq l1 l2 ts,
    pred_block pl a name pred (World c o)
    = Val r (World c'
        (o ++ [PredHeader name; SeqTime t_seq; l1; l2; CustomHeader]
           ++ zip_with KTime (Ks r) ts
           ++ [BestK (bestK r) (bestT r)
                 (to_int (Z.max 1 (hardware_concurrency pl)))])) ∧
    res_seq r = seq_cnt a pred ∧
    candidate_Ks (to_int (Z.max 1 (hardware_concurrency pl))) = Some (Ks r) ∧
    length ts = length (Ks r) ∧
    rows r = zip_with (λ K t, (K, seq_cnt a pred, t)) (Ks r) ts ∧
    (bestT r, bestK r) = track_best (zip (Ks r) ts) ∧
    (l1 = ParNotSupported ∨ l1 = ParTime (t_par r)) ∧
    (l2 = ParUnseqNotSupported ∨ l2 = ParUnseqTime (t_par_unseq r)) ∧
    ((∀ i, par_policy pl i a pred = None) →
       l1 = ParNotSupported ∧ res_par r = seq_cnt a pred ∧
       t_par r = (-1)%Qc) ∧
    ((∀ i, par_unseq_policy pl i a pred = None) →
       l2 = ParUnseqNotSupported ∧ res_par_unseq r = seq_cnt a pred ∧
       t_par_unseq r = (-1)%Qc).
Proof.
  intros Ha Hhc Hmax.
  destruct (measure_world pl 7 c) as (t_seq & Hseq); [lia|].
  specialize (Hseq (discard (mret (seq_cnt a pred))) (o ++ [PredHeader name])
                (λ w, eq_refl)).
  change (c + 2 * Z.to_nat 7)%nat with (c + 14)%nat in Hseq.
  destruct (policy_block_returns pl (λ i, par_policy pl i a pred)
              (seq_cnt a pred) ParTime ParNotSupported (c + 14)
              ((o ++ [PredHeader name]) ++ [SeqTime t_seq]))
    as (r1 & c1 & l1 & Hpar & Hl1).
  destruct (policy_block_returns pl (λ i, par_unseq_policy pl i a pred)
              (seq_cnt a pred) ParUnseqTime ParUnseqNotSupported c1
              (((o ++ [PredHeader name]) ++ [SeqTime t_seq]) ++ [l1]))
    as (r2 & c2 & l2 & Hunseq & Hl2).
  destruct (custom_block_world pl (λ K, defined (my_parallel_cnt a pred K))
              (λ _, seq_cnt a pred) (seq_cnt a pred) c2
              ((((o ++ [PredHeader name]) ++ [SeqTime t_seq]) ++ [l1]) ++ [l2])
              Hhc Hmax)
    as (Ks & ts & HKs & Hlen & Hcustom).
  { intros K w. unfold defined. by rewrite my_parallel_cnt_total. }
  exists {| res_seq := seq_cnt a pred;
            res_par := r1.1; t_par := r1.2;
            res_par_unseq := r2.1; t_par_unseq := r2.2;
            Ks := Ks;
            rows := zip_with (λ K t, (K, seq_cnt a pred, t)) Ks ts;
            bestT := (track_best (zip Ks ts)).1;
            bestK := (track_best (zip Ks ts)).2 |},
    (c2 + 14 * length Ks)%nat, t_seq, l1, l2, ts.
  split.
  { unfold pred_block, mbind, M_bind, print. simpl.
    rewrite Hseq. simpl. unfold par_cnt, par_unseq_cnt.
    rewrite Hpar, Hunseq, Hcustom. rewrite sweep_lines_agree.
    unfold mret, M_ret. by rewrite <-!app_assoc. }
  simpl. split_and!; try done.
  - by destruct (track_best (zip Ks ts)).
  - intros Hnone.
    rewrite (policy_block_unsupported pl (λ i, par_policy pl i a pred)) in Hpar
      by apply Hnone.
    by simplify_eq/=.
  - intros Hnone.
    rewrite (policy_block_unsupported pl (λ i, par_unseq_policy pl i a pred))
      in Hunseq by apply Hnone.
    by simplify_eq/=.
Qed.

(** C8: whatever the library does with the two parallel policies, the turn
    of a predicate returns: an exception of a policy is caught by the
    handler of its block, which prints that the policy is not supported.
    When a policy is not supported, so that its call throws, its result
    variable holds the baseline count and its time -1.  In every case the
    turn goes on with the sweep, which measures every candidate K, prints
    no error line and ends with the best pair. *)
Theorem unsupported_policy_is_contained pl a name pred w :
  Z.of_nat (length a) ≤ INT_MAX →
  0 ≤ hardware_concurrency pl → 4 * hardware_concurrency pl ≤ INT_MAX →
  (∀ rs w1,
     par_policy pl (clock_reads w1) a pred = None →
     policy_block pl (par_cnt pl a pred) rs ParTime ParNotSupported w1
     = Val (rs, (-1)%Qc)
           (World (clock_reads w1) (out w1 ++ [ParNotSupported]))) ∧
  (∀ rs w1,
     par_unseq_policy pl (clock_reads w1) a pred = None →
     policy_block pl (par_unseq_cnt pl a pred) rs
       ParUnseqTime ParUnseqNotSupported w1
     = Val (rs, (-1)%Qc)
           (World (clock_reads w1) (out w1 ++ [ParUnseqNotSupported]))) ∧
  ∃ r w' t_seq l1 l2 ts,
    pred_block pl a name pred w = Val r w' ∧
    out w' = out w
      ++ [PredHeader name; SeqTime t_seq; l1; l2; CustomHeader]
      ++ zip_with KTime (Ks r) ts
      ++ [BestK (bestK r) (bestT r)
            (to_int (Z.max 1 (hardware_concurrency pl)))] ∧
    res_seq r = seq_cnt a pred ∧
    (l1 = ParNotSupported ∨ l1 = ParTime (t_par r)) ∧
    (l2 = ParUnseqNotSupported ∨ l2 = ParUnseqTime (t_par_unseq r)) ∧
    ((∀ i, par_policy pl i a pred = None) →
       l1 = ParNotSupported ∧ res_par r = res_seq r ∧ t_par r = (-1)%Qc) ∧
    ((∀ i, par_unseq_policy pl i a pred = None) →
       l2 = ParUnseqNotSupported ∧ res_par_unseq r = res_seq r ∧
       t_par_unseq r = (-1)%Qc) ∧
    candidate_Ks (to_int (Z.max 1 (hardware_concurrency pl))) = Some (Ks r) ∧
    length ts = length (Ks r) ∧
    rows r = zip_with (λ K t, (K, seq_cnt a pred, t)) (Ks r) ts ∧
    (bestT r, bestK r) = track_best (zip (Ks r) ts).
Proof.
  intros Ha Hhc Hmax.
  split; [intros rs w1 Hnone; by apply policy_block_unsupported|].
  split; [intros rs w1 Hnone; by apply policy_block_unsupported|].
  destruct w as [c o].
  destruct (pred_block_world pl a name pred c o Ha Hhc Hmax)
    as (r & c' & t_seq & l1 & l2 & ts & Hrun & Hseq & HKs & Hlen & Hrows & Hbest
        & Hl1 & Hl2 & Hpar & Hunseq).
  eexists r, _, t_seq, l1, l2, ts. split; [exact Hrun|].
  rewrite Hseq. by split_and!.
Qed.

Lemma unsupported_policy_is_contained_witness :
  ∃ r w',
    pred_block toy_platform [1; 2; 3; 4; 5; 6] "light" pred_light world0
    = Val r w' ∧
    ParNotSupported ∈ out w' ∧
    res_par r = res_seq r ∧ t_par r = (-1)%Qc.
Proof.
  destruct (unsupported_policy_is_contained toy_platform
              [1; 2; 3; 4; 5; 6] "light" pred_light world0)
    as (_ & _ & r & w' & t_seq & l1 & l2 & ts & Hrun & Hout & _ & _ & _ & Hpar & _).
  - by vm_compute.
  - cbn. lia.
  - cbn. unfold INT_MAX. lia.
  - destruct Hpar as (-> & Hres & Ht); [done|].
    exists r, w'. split_and!; [assumption| |assumption|assumption].
    rewrite Hout. apply elem_of_app. right. do 2 right. left.
Defined.

(** ** The whole of main *)

Lemma fill_length lib n g : length (fill lib n g).1 = n.
Proof.
  revert g. induction n as [|n IH]; intros g; [done|].
  simpl. destruct (uniform_int lib 0 1000000 g) as [x g1].
  specialize (IH g1). destruct (fill lib n g1) as [xs g2]. simpl in *.
  by rewrite IH.
Qed.

Lemma pred_loop_world pl a ps c o :
  Z.of_nat (length a) ≤ INT_MAX →
  0 ≤ hardware_concurrency pl → 4 * hardware_concurrency pl ≤ INT_MAX →
  ∃ rs c' o',
    pred_loop pl a ps (World c o) = Val rs (World c' o') ∧
    res_seq <$> rs = (λ pp : string * (Z → bool), seq_cnt a pp.2) <$> ps ∧
    Forall (λ r, Forall (λ row : Z * Z * Qc, row.1.2 = res_seq r) (rows r)) rs.
Proof.
  intros Ha Hhc Hmax. revert c o.
  induction ps as [|[name pred] ps IH]; intros c o.
  - by exists [], c, o.
  - destruct (pred_block_world pl a name pred c o Ha Hhc Hmax)
      as (r & c1 & t_seq & l1 & l2 & ts & Hrun & Hseq & _ & _ & Hrows & _).
    match type of Hrun with _ = Val _ (World _ ?o1) =>
      destruct (IH c1 o1) as (rs & c' & o' & Hloop & Hcounts & Hall) end.
    exists (r :: rs), c', o'. split_and!.
    + simpl. unfold mbind, M_bind. by rewrite Hrun, Hloop.
    + by rewrite !fmap_cons, Hseq, Hcounts.
    + constructor; [|done]. rewrite Hrows, Hseq.
      apply Forall_forall. intros row Hrow.
      apply elem_of_lookup_zip_with in Hrow as (i & K & t & -> & _). done.
Qed.

Lemma size_loop_world lib pl sizes g c o :
  Forall (λ N, 0 ≤ N ≤ INT_MAX) sizes →
  0 ≤ hardware_concurrency pl → 4 * hardware_concurrency pl ≤ INT_MAX →
  ∃ tr c' o',
    size_loop lib pl sizes g (World c o) = Val tr (World c' o') ∧
    block_data <$> tr = reference_from lib sizes g ∧
    Forall (λ b : Z * list Z * list report,
      Forall (λ r, Forall (λ row : Z * Z * Qc, row.1.2 = res_seq r) (rows r))
             b.2) tr.
Proof.
  intros Hsizes Hhc Hmax. revert g c o.
  induction Hsizes as [|N sizes HN Hsizes IH]; intros g c o.
  - by exists [], c, o.
  - pose proof (fill_length lib (Z.to_nat N) g) as Hlen.
    cbn [size_loop reference_from].
    destruct (fill lib (Z.to_nat N) g) as [a g']. cbn [fst] in Hlen.
    generalize (preds lib). intros ps.
    destruct (pred_loop_world pl a ps c (o ++ [SizeHeader N]))
      as (rs & c1 & o1 & Hloop & Hcounts & Hall); [lia|done|done|].
    destruct (IH g' c1 o1) as (tr & c' & o' & Hrest & Hdata & Hrows).
    exists ((N, a, rs) :: tr), c', o'. split_and!.
    + unfold mbind, M_bind, print. cbn [clock_reads out].
      by rewrite Hloop, Hrest.
    + rewrite fmap_cons, Hdata. unfold block_data at 1. cbn [fst snd].
      by rewrite Hcounts.
    + by constructor.
Qed.

Lemma Ns_in_range : Forall (λ N, 0 ≤ N ≤ INT_MAX) Ns.
Proof. unfold Ns, INT_MAX. repeat constructor; lia. Qed.

Lemma main_world lib pl w :
  0 ≤ hardware_concurrency pl → 4 * hardware_concurrency pl ≤ INT_MAX →
  ∃ tr w',
    main lib pl w = Val tr w' ∧
    block_data <$> tr = reference lib Ns ∧
    Forall (λ b : Z * list Z * list report,
      Forall (λ r, Forall (λ row : Z * Z * Qc, row.1.2 = res_seq r) (rows r))
             b.2) tr.
Proof.
  intros Hhc Hmax. destruct w as [c o].
  destruct (size_loop_world lib pl Ns (mt19937_64 lib seed) c
              (o ++ [CpuThreads (hardware_concurrency pl)])
              Ns_in_range Hhc Hmax)
    as (tr & c' & o' & Hrun & Hdata & Hrows).
  exists tr, (World c' o'). split; [|done].
  unfold main, main_for, mbind, M_bind, print. cbn [clock_reads out].
  by rewrite Hrun.
Qed.

Lemma block_data_fst (tr : list (Z * list Z * list report)) :
  (λ d : Z * list Z * list Z, d.1) <$> (block_data <$> tr) = tr.*1.
Proof.
  rewrite <-list_fmap_compose. apply list_fmap_ext.
  by intros i [[N a] rs] _.
Qed.

(** C10: the engine is seeded with the constant 123456, so two executions,
    on whatever machines, clocks and libraries' support of the policies,
    fill the same workloads for the sizes of [Ns], get the same sequential
    counts for each predicate, and in their sweeps the same count for each
    K that both measure. *)
Theorem workloads_are_reproducible lib pl1 pl2 w1 w2 :
  0 ≤ hardware_concurrency pl1 → 4 * hardware_concurrency pl1 ≤ INT_MAX →
  0 ≤ hardware_concurrency pl2 → 4 * hardware_concurrency pl2 ≤ INT_MAX →
  seed = 123456 ∧
  ∃ tr1 w1' tr2 w2',
    main lib pl1 w1 = Val tr1 w1' ∧ main lib pl2 w2 = Val tr2 w2' ∧
    block_data <$> tr1 = reference lib Ns ∧
    block_data <$> tr2 = reference lib Ns ∧
    tr1.*1 = tr2.*1 ∧
    ∀ (i j : nat) b1 b2 r1 r2,
      tr1 !! i = Some b1 → tr2 !! i = Some b2 →
      b1.2 !! j = Some r1 → b2.2 !! j = Some r2 →
      res_seq r1 = res_seq r2 ∧
      ∀ K c1 t1 c2 t2,
        (K, c1, t1) ∈ rows r1 → (K, c2, t2) ∈ rows r2 → c1 = c2.
Proof.
  intros Hhc1 Hmax1 Hhc2 Hmax2. split; [done|].
  destruct (main_world lib pl1 w1 Hhc1 Hmax1) as (tr1 & w1' & Hrun1 & Hd1 & Hr1).
  destruct (main_world lib pl2 w2 Hhc2 Hmax2) as (tr2 & w2' & Hrun2 & Hd2 & Hr2).
  exists tr1, w1', tr2, w2'. split_and!; try done.
  - by rewrite <-(block_data_fst tr1), <-(block_data_fst tr2), Hd1, Hd2.
  - intros i j b1 b2 r1 r2 Hb1 Hb2 Hj1 Hj2.
    assert (res_seq r1 = res_seq r2) as Hseq.
    { assert (block_data b1 = block_data b2) as Hb.
      { apply (inj Some).
        rewrite <-(list_lookup_fmap_Some_2 block_data tr1 i b1 Hb1).
        rewrite <-(list_lookup_fmap_Some_2 block_data tr2 i b2 Hb2).
        by rewrite Hd1, Hd2. }
      apply (f_equal snd) in Hb. unfold block_data in Hb. cbn [snd] in Hb.
      apply (inj Some).
      rewrite <-(list_lookup_fmap_Some_2 res_seq b1.2 j r1 Hj1).
      rewrite <-(list_lookup_fmap_Some_2 res_seq b2.2 j r2 Hj2).
      by rewrite Hb. }
    split; [done|]. intros K c1 t1 c2 t2 Hrow1 Hrow2.
    rewrite Forall_forall in Hr1. rewrite Forall_forall in Hr2.
    pose proof (Hr1 b1 (list_elem_of_lookup_2 _ _ _ Hb1)) as Hall1.
    pose proof (Hr2 b2 (list_elem_of_lookup_2 _ _ _ Hb2)) as Hall2.
    rewrite Forall_forall in Hall1. rewrite Forall_forall in Hall2.
    pose proof (Hall1 r1 (list_elem_of_lookup_2 _ _ _ Hj1)) as Hrows1.
    pose proof (Hall2 r2 (list_elem_of_lookup_2 _ _ _ Hj2)) as Hrows2.
    rewrite Forall_forall in Hrows1. rewrite Forall_forall in Hrows2.
    specialize (Hrows1 _ Hrow1). specialize (Hrows2 _ Hrow2).
    simpl in *. congruence.
Qed.

Lemma workloads_are_reproducible_witness :
  ∃ tr1 w1' tr2 w2',
    main toy_library toy_platform world0 = Val tr1 w1' ∧
    main toy_library toy_platform' world0 = Val tr2 w2' ∧
    tr1.*1 = tr2.*1.
Proof.
  destruct (workloads_are_reproducible toy_library toy_platform toy_platform'
              world0 world0) as [_ (tr1 & w1' & tr2 & w2' & H1 & H2 & _ & _ & H & _)].
  - cbn. lia.
  - cbn. unfold INT_MAX. lia.
  - cbn. lia.
  - cbn. unfold INT_MAX. lia.
  - exists tr1, w1', tr2, w2'. split_and!; assumption.
Defined.

(** * Further properties of the code *)

(** ** seq_cnt and the light predicate *)

Lemma seq_cnt_all a p :
  (seq_cnt a p = Z.of_nat (length a) → Forall (λ x, p x = true) a) ∧
  (Forall (λ x, p x = true) a → seq_cnt a p = Z.of_nat (length a)).
Proof.
  unfold seq_cnt. induction a as [|x a [IH1 IH2]]; [by split|].
  rewrite count_if_cons, Forall_cons. simpl length.
  pose proof (count_if_bounds p a). split.
  - intros Hc. destruct (p x); [|lia]. split; [done|]. apply IH1. lia.
  - intros [-> Hall]. rewrite IH2 by done. lia.
Qed.

(** X1: seq_cnt(a, p) lies between 0 and a.size(); it is a.size() exactly
    when every element satisfies p and 0 exactly when none does; the counts
    of p and of its negation add up to a.size(). *)
Theorem seq_cnt_extremes a p :
  0 ≤ seq_cnt a p ∧ seq_cnt a p ≤ Z.of_nat (length a) ∧
  (seq_cnt a p = Z.of_nat (length a) ↔ Forall (λ x, p x = true) a) ∧
  (seq_cnt a p = 0 ↔ Forall (λ x, p x = false) a) ∧
  seq_cnt a p + seq_cnt a (λ x, negb (p x)) = Z.of_nat (length a).
Proof.
  unfold seq_cnt. induction a as [|x a (IH0 & IH1 & IHall & IHnone & IHsum)].
  { split_and!; try done; split; by try constructor. }
  rewrite !count_if_cons, !Forall_cons. simpl length.
  destruct (p x) eqn:Hpx; simpl; split_and!; try lia.
  - split; [intros Hc; split; [done|apply IHall; lia]|].
    intros [_ Hall]. apply IHall in Hall. lia.
  - split; [intros Hc; split; [done|apply IHnone; lia]|].
    intros [_ Hall]. apply IHnone in Hall. lia.
Qed.

(** X2: the count over a concatenation of any two vectors is the sum of
    their counts, which is what lets my_parallel_cnt cut the vector into
    ranges; and the count does not depend on the order of the elements: a
    vector and its reverse, and two vectors that are permutations of each
    other, have the same count. *)
Theorem seq_cnt_order_free p :
  (∀ a b, seq_cnt (a ++ b) p = seq_cnt a p + seq_cnt b p) ∧
  (∀ a, seq_cnt (reverse a) p = seq_cnt a p) ∧
  (∀ a b, a ≡ₚ b → seq_cnt a p = seq_cnt b p).
Proof.
  assert (Hperm : ∀ l k : list Z, l ≡ₚ k → count_if p l = count_if p k).
  { intros l k Hp. induction Hp as [|x l k _ IH|x y l|l k m _ IH1 _ IH2].
    - done.
    - by rewrite !count_if_cons, IH.
    - rewrite !count_if_cons. lia.
    - by rewrite IH1. }
  unfold seq_cnt. split_and!.
  - intros a b. apply count_if_app.
  - intros a. apply Hperm, reverse_Permutation.
  - intros a b Hab. by apply Hperm.
Qed.

Lemma seq_cnt_order_free_witness :
  seq_cnt [3; 1; 2] pred_light = seq_cnt [1; 2; 3] pred_light.
Proof.
  refine (proj2 (proj2 (seq_cnt_order_free pred_light)) [3; 1; 2] [1; 2; 3] _).
  change [3; 1; 2] with ([3] ++ [1; 2]).
  change [1; 2; 3] with ([1; 2] ++ [3]).
  apply Permutation_app_comm.
Defined.

(** X3: the light predicate [(x & 1) == 0] accepts exactly the even
    integers, the negative ones included. *)
Theorem pred_light_even x : pred_light x = Z.even x.
Proof.
  unfold pred_light. change 1 with (Z.ones 1). rewrite Z.land_ones by lia.
  change (2 ^ 1) with 2. rewrite Zmod_even.
  destruct (Z.even x); by vm_compute.
Qed.

(** ** The ranges and the slots of my_parallel_cnt *)

Lemma div_step a N K :
  0 < K → 0 ≤ a → 0 ≤ N →
  N `div` K ≤ (a + N) `div` K - a `div` K ∧
  (a + N) `div` K - a `div` K ≤ N `div` K + 1.
Proof.
  intros HK Ha HN.
  pose proof (Z.div_mod a K ltac:(lia)). pose proof (Z.mod_pos_bound a K HK).
  pose proof (Z.div_mod N K ltac:(lia)). pose proof (Z.mod_pos_bound N K HK).
  pose proof (Z.div_mod (a + N) K ltac:(lia)).
  pose proof (Z.mod_pos_bound (a + N) K HK).
  split; nia.
Qed.

Lemma plan_sizes_sum N K (j : nat) :
  0 < K →
  foldr Z.add 0 ((λ k, plan_R N K k - plan_L N K k) <$> seqZ 0 (Z.of_nat j))
  = plan_L N K (Z.of_nat j).
Proof.
  intros HK. induction j as [|j IH].
  - simpl. by rewrite plan_L_0.
  - rewrite seqZ_S, fmap_app, foldr_app. simpl.
    rewrite Z.add_0_r, plan_R_L.
    replace (Z.of_nat (S j)) with (Z.of_nat j + 1) by lia.
    assert (Hshift : ∀ (l : list Z) x, foldr Z.add x l = x + foldr Z.add 0 l).
    { intros l x. induction l as [|y l IHl]; simpl; lia. }
    rewrite Hshift, IH, !Z.add_0_l. lia.
Qed.

(** X4: the ranges are balanced: the size of each is floor(N/K) or
    floor(N/K) + 1, and the sizes of the K ranges add up to N. *)
Theorem partition_sizes_balanced N K :
  0 ≤ N → 1 ≤ K →
  (∀ k, 0 ≤ k < K →
     N `div` K ≤ plan_R N K k - plan_L N K k ∧
     plan_R N K k - plan_L N K k ≤ N `div` K + 1) ∧
  foldr Z.add 0 ((λ r, r.2 - r.1) <$> PartitionPlan N K) = N.
Proof.
  intros HN HK. split.
  - intros k Hk. rewrite plan_R_L, !plan_L_floor by lia.
    replace (N * (k + 1)) with (N * k + N) by lia.
    apply div_step; [lia|nia|lia].
  - unfold PartitionPlan. rewrite <-list_fmap_compose.
    pose proof (plan_sizes_sum N K (Z.to_nat K)) as Hsum.
    rewrite Z2Nat.id, plan_L_K in Hsum by lia. apply Hsum. lia.
Qed.

Lemma partition_sizes_balanced_witness :
  foldr Z.add 0 ((λ r, r.2 - r.1) <$> PartitionPlan 10 4) = 10.
Proof.
  refine (proj2 (partition_sizes_balanced 10 4 _ _)); lia.
Defined.

(** X5: when the threads are joined, in whatever order they ran, partial
    has K slots and slot k holds the count over the k-th range of the
    plan. *)
Theorem partial_after_join a p K sched :
  Z.of_nat (length a) ≤ INT_MAX → 1 < K →
  sched ≡ₚ spawned (my_parallel_call a p K) →
  ∃ partial,
    run_threads a p sched (replicate (Z.to_nat K) 0) = Some partial ∧
    length partial = Z.to_nat K ∧
    ∀ k : nat, Z.of_nat k < K →
      ∃ r, range a (plan_L (Z.of_nat (length a)) K (Z.of_nat k))
                   (plan_R (Z.of_nat (length a)) K (Z.of_nat k)) = Some r ∧
           partial !! k = Some (count_if p r).
Proof.
  intros Ha HK Hp.
  destruct (spawned_threads a p K HK) as [Hsp _].
  rewrite n_to_int in Hsp by done.
  exists (slot_count a p (Z.of_nat (length a)) K <$> seqZ 0 K). split_and!.
  - rewrite (run_threads_schedule a p sched _ _ Hp).
    + rewrite Hsp. apply run_spawned; [done|lia].
    + rewrite Hp, Hsp, spawn_slots. apply NoDup_seqZ.
  - by rewrite length_fmap, length_seqZ.
  - intros k Hk.
    destruct (spawn_bounds a K Ha ltac:(lia) (Z.of_nat k))
      as (_ & _ & ? & ? & ?); [lia|].
    eexists. split.
    + unfold range. rewrite decide_True by lia. done.
    + rewrite list_lookup_fmap.
      rewrite (proj2 (lookup_seqZ 0 K k (Z.of_nat k))) by lia. done.
Qed.

Lemma partial_after_join_witness :
  ∃ partial,
    run_threads [1; 2; 3; 4; 5; 6] pred_light
      (reverse (spawned (my_parallel_call [1; 2; 3; 4; 5; 6] pred_light 4)))
      (replicate (Z.to_nat 4) 0) = Some partial ∧
    length partial = Z.to_nat 4.
Proof.
  destruct (partial_after_join [1; 2; 3; 4; 5; 6] pred_light 4
              (reverse (spawned (my_parallel_call [1; 2; 3; 4; 5; 6]
                                   pred_light 4))))
    as (partial & Hrun & Hlen & _).
  - by vm_compute.
  - lia.
  - apply reverse_Permutation.
  - exists partial. split; assumption.
Defined.

Lemma run_threads_empty_ranges a p K ks :
  Forall (λ k, 0 ≤ k < K) ks →
  run_threads a p (spawn 0 K <$> ks) (replicate (Z.to_nat K) 0)
  = Some (replicate (Z.to_nat K) 0).
Proof.
  induction 1 as [|k ks Hk _ IH]; [done|].
  rewrite fmap_cons. simpl. unfold run_thread at 1. simpl.
  assert (plan_L 0 K k = 0 ∧ plan_R 0 K k = 0) as [-> ->].
  { unfold plan_L, plan_R. rewrite !Z.mul_0_l. split; apply Z.quot_0_l; lia. }
  change (to_int 0) with 0. unfold range.
  rewrite decide_True by lia. simpl.
  rewrite decide_True by (rewrite length_replicate; lia).
  change (count_if p []) with 0. by rewrite insert_replicate.
Qed.

(** X6: when the [int n] that receives a.size() is 0, as for the empty
    vector, and for a vector of a multiple of 2^32 elements, every thread
    gets the empty range and my_parallel_cnt returns 0 for K >= 2; for a
    vector that is not empty and whose elements all satisfy the predicate
    this is not the sequential count. *)
Theorem size_narrowed_to_zero a p K :
  1 < K → Z.of_nat (length a) `mod` 2 ^ 32 = 0 →
  to_int (Z.of_nat (length a)) = 0 ∧
  my_parallel_cnt a p K = Some 0 ∧
  (a ≠ [] → Forall (λ x, p x = true) a →
   my_parallel_cnt a p K ≠ Some (seq_cnt a p)).
Proof.
  intros HK Hmod.
  assert (Hn : to_int (Z.of_nat (length a)) = 0).
  { unfold to_int, INT_MIN.
    apply Z.mod_divide in Hmod as [q Hq]; [|lia].
    rewrite Hq. change 4294967296 with (2 ^ 32).
    replace (q * 2 ^ 32 - -2147483648) with (2147483648 + q * 2 ^ 32) by lia.
    rewrite Z.mod_add by lia. done. }
  assert (Hcnt : my_parallel_cnt a p K = Some 0).
  { destruct (spawned_threads a p K HK) as [Hsp ->].
    rewrite Hsp, Hn, run_threads_empty_ranges.
    - simpl. f_equal. induction (Z.to_nat K) as [|m IH]; [done|]. by simpl.
    - apply Forall_forall. intros k Hk%elem_of_seqZ. lia. }
  split_and!; try done.
  intros Hne Hall. rewrite Hcnt. intros [= Hseq].
  destruct (seq_cnt_all a p) as [_ Hsize]. specialize (Hsize Hall).
  destruct a; [done|]. simpl in Hsize. lia.
Qed.

Lemma size_narrowed_to_zero_witness : my_parallel_cnt [] pred_light 3 = Some 0.
Proof.
  refine (proj1 (proj2 (size_narrowed_to_zero [] pred_light 3 _ _)));
    [lia|done].
Defined.

(** ** measure: exceptions and the median *)

Lemma measure_loop_outcomes {S} (now : S → Qc * S) (fn : M S ()) i t s c :
  (∀ s, fn s ≠ Undef) →
  (∃ t' s', measure_loop (uncounted now) (counted fn) i t (s, c)
            = Val (t ++ t') (s', (c + i)%nat) ∧ length t' = i) ∨
  (∃ s' (j : nat), (1 ≤ j ≤ i)%nat ∧
     measure_loop (uncounted now) (counted fn) i t (s, c)
     = Exn (s', (c + j)%nat)).
Proof.
  intros Hfn. revert t s c. induction i as [|i IH]; intros t s c.
  - left. exists [], s. by rewrite app_nil_r, Nat.add_0_r.
  - simpl. unfold mbind, M_bind, read_clock, uncounted, counted in *. simpl.
    destruct (now s) as [t0 s0]. pose proof (Hfn s0) as Hs0.
    destruct (fn s0) as [[] s1|s1|]; [| |done].
    + destruct (now s1) as [t1 s2].
      destruct (IH (t ++ [(t1 - t0)%Qc]) s2 (Datatypes.S c))
        as [(t' & s' & -> & Hlen)|(s' & j & Hj & ->)].
      * left. exists ((t1 - t0)%Qc :: t'), s'. rewrite <-app_assoc. simpl.
        split; [do 2 f_equal; lia|by f_equal].
      * right. exists s', (Datatypes.S j). split; [lia|]. do 2 f_equal. lia.
    + right. exists s1, 1%nat. split; [lia|]. do 2 f_equal. lia.
Qed.

(** X7: measure has no handler and does not retry.  For R >= 1 and an
    operation whose behaviour is defined, either the R invocations return
    and measure returns, or an invocation throws and measure leaves with
    that exception after at least one and at most R invocations; when the
    operation throws at once, one invocation and one reading of the clock
    have taken place. *)
Theorem measure_stops_at_exception {S} (now : S → Qc * S) (fn : M S ()) R s c :
  1 ≤ R → (∀ s, fn s ≠ Undef) →
  ((∃ v s', measure (uncounted now) (counted fn) R (s, c)
            = Val v (s', (c + Z.to_nat R)%nat)) ∨
   (∃ s' (j : nat), (1 ≤ j ≤ Z.to_nat R)%nat ∧
      measure (uncounted now) (counted fn) R (s, c)
      = Exn (s', (c + j)%nat))) ∧
  ((∀ s, fn s = Exn s) →
   measure (uncounted now) (counted fn) R (s, c)
   = Exn ((now s).2, Datatypes.S c)).
Proof.
  intros HR Hfn. split.
  - unfold measure, mbind, M_bind.
    destruct (measure_loop_outcomes now fn (Z.to_nat R) [] s c Hfn)
      as [(t' & s' & Hrun & Hlen)|(s' & j & Hj & ->)].
    + simpl in Hrun. rewrite Hrun.
      destruct (median_defined t') as (v & -> & _).
      { intros ->. simpl in Hlen. lia. }
      left. by exists v, s'.
    + right. by exists s', j.
  - intros Hthrow. unfold measure, mbind, M_bind.
    destruct (Z.to_nat R) as [|i] eqn:Hi; [lia|]. simpl.
    unfold mbind, M_bind, read_clock, uncounted, counted. simpl.
    destruct (now s) as [t0 s0]. by rewrite Hthrow.
Qed.

Lemma measure_stops_at_exception_witness :
  measure (uncounted toy_now) (counted (λ s, Exn s)) 7 (0%nat, 0%nat)
  = Exn ((toy_now 0%nat).2, 1%nat).
Proof.
  refine (proj2 (measure_stops_at_exception toy_now (λ s, Exn s) 7
                   0%nat 0%nat _ _) _); [lia|done|done].
Defined.

Lemma sorted_lookup_le (l : list Qc) (i j : nat) x y :
  StronglySorted Qcle l → l !! i = Some x → l !! j = Some y → (i ≤ j)%nat →
  (x ≤ y)%Qc.
Proof.
  intros Hs. revert i j. induction Hs as [|z l Hs IH Hz]; intros i j Hi Hj Hij.
  - done.
  - destruct i as [|i], j as [|j]; simplify_eq/=; [done| |lia|].
    + rewrite Forall_forall in Hz. apply Hz. by eapply list_elem_of_lookup_2.
    + apply (IH i j); [done|done|lia].
Qed.

Lemma filter_all {A} (P : A → Prop) `{∀ x, Decision (P x)} (l : list A) :
  Forall P l → filter P l = l.
Proof.
  induction 1 as [|x l Hx _ IH]; [done|]. by rewrite filter_cons_True, IH.
Qed.

Lemma length_filter_prefix {A} (P : A → Prop) `{∀ x, Decision (P x)}
    (l : list A) (n : nat) :
  Forall P (take n l) → (n ≤ length l)%nat → (n ≤ length (filter P l))%nat.
Proof.
  intros Hall Hn. rewrite <-(take_drop n l), filter_app, length_app.
  rewrite (filter_all P (take n l)) by done. rewrite length_take_le by done.
  lia.
Qed.

Lemma length_filter_suffix {A} (P : A → Prop) `{∀ x, Decision (P x)}
    (l : list A) (n : nat) :
  Forall P (drop n l) → (length l - n ≤ length (filter P l))%nat.
Proof.
  intros Hall. rewrite <-(take_drop n l) at 2. rewrite filter_app, length_app.
  rewrite (filter_all P (drop n l)) by done. rewrite length_drop. lia.
Qed.

(** X8: what measure returns is a median of the R samples: it is one of
    them, at least R/2 + 1 samples are not greater and at least R - R/2 are
    not smaller (R/2 the integer quotient), so fewer than half of the
    samples lie on either side of it. *)
Theorem median_splits_samples {S} (now : S → Qc * S) (fn : M S ()) R s :
  1 ≤ R → (∀ s, ∃ s', fn s = Val () s') →
  ∃ t s' v,
    measure_loop now fn (Z.to_nat R) [] s = Val t s' ∧
    length t = Z.to_nat R ∧
    measure now fn R s = Val v s' ∧
    v ∈ t ∧
    (Z.to_nat R / 2 + 1 ≤ length (filter (λ x, (x ≤ v)%Qc) t))%nat ∧
    (Z.to_nat R - Z.to_nat R / 2 ≤ length (filter (λ x, (v ≤ x)%Qc) t))%nat.
Proof.
  intros HR Hfn.
  destruct (measure_loop_returns now fn Hfn (Z.to_nat R) [] s 0%nat)
    as (t & s' & Hlen & Hrun & _). simpl in Hrun.
  destruct (median_defined t) as (v & Hv & Hin).
  { intros ->. simpl in Hlen. lia. }
  pose proof (merge_sort_Permutation Qcle t) as Hperm.
  assert (length (merge_sort Qcle t) = Z.to_nat R) as Hlen'
    by by rewrite Hperm.
  rewrite Hlen' in Hv.
  assert (StronglySorted Qcle (merge_sort Qcle t)) as Hsorted
    by (apply StronglySorted_merge_sort; apply _).
  assert (Z.to_nat R / 2 < Z.to_nat R)%nat as Hmid
    by (apply Nat.div_lt; lia).
  exists t, s', v. split_and!; try done.
  - unfold measure, mbind, M_bind. by rewrite Hrun, Hlen', Hv.
  - rewrite <-Hperm. apply length_filter_prefix; [|lia].
    apply Forall_lookup. intros i x [Hx Hi]%lookup_take_Some.
    apply (sorted_lookup_le _ i (Z.to_nat R / 2) x v Hsorted); [done|done|lia].
  - rewrite <-Hperm. rewrite <-Hlen' at 1. apply length_filter_suffix.
    apply Forall_lookup. intros i x Hx. rewrite lookup_drop in Hx.
    apply (sorted_lookup_le _ (Z.to_nat R / 2) (Z.to_nat R / 2 + i) v x
             Hsorted); [done|done|lia].
Qed.

Lemma median_splits_samples_witness :
  ∃ t s' v,
    measure_loop toy_now (mret ()) (Z.to_nat 7) [] 0%nat = Val t s' ∧
    length t = Z.to_nat 7 ∧
    measure toy_now (mret ()) 7 0%nat = Val v s' ∧
    v ∈ t ∧
    (Z.to_nat 7 / 2 + 1 ≤ length (filter (λ x, (x ≤ v)%Qc) t))%nat ∧
    (Z.to_nat 7 - Z.to_nat 7 / 2 ≤ length (filter (λ x, (v ≤ x)%Qc) t))%nat.
Proof.
  apply (median_splits_samples toy_now (mret ()) 7 0%nat).
  - lia.
  - intros s. by exists s.
Defined.

(** ** The policy blocks under a monotone clock *)

Lemma sample_nonneg (x y : Qc) : (x ≤ y)%Qc → (0 ≤ y - x)%Qc.
Proof. intros Hxy. by apply Qcle_minus_iff in Hxy. Qed.

Lemma measure_loop_monotone pl fn i t c o :
  (∀ i, (steady_clock pl i ≤ steady_clock pl (S i))%Qc) →
  (∀ w, fn w = Val () w ∨ fn w = Exn w) →
  Forall (λ x, (0 ≤ x)%Qc) t →
  (∃ t', measure_loop (now pl) fn i t (World c o)
         = Val t' (World (c + 2 * i) o) ∧
         length t' = (length t + i)%nat ∧ Forall (λ x, (0 ≤ x)%Qc) t') ∨
  (∃ c', measure_loop (now pl) fn i t (World c o) = Exn (World c' o)).
Proof.
  intros Hclock Hfn. revert t c. induction i as [|i IH]; intros t c Ht.
  - left. exists t. rewrite !Nat.add_0_r. done.
  - simpl. unfold mbind, M_bind, read_clock, now in *. simpl.
    destruct (Hfn (World (S c) o)) as [-> | ->]; [|right; by eexists].
    simpl.
    destruct (IH (t ++ [(steady_clock pl (S c) - steady_clock pl c)%Qc])
                (S (S c))) as [(t' & -> & Hlen & Hall)|(c' & ->)].
    + apply Forall_app. split; [done|]. repeat constructor.
      apply sample_nonneg, Hclock.
    + left. exists t'. split_and!; [do 2 f_equal; lia| |done].
      rewrite Hlen, length_app. simpl. lia.
    + right. by exists c'.
Qed.

(** X9: a policy block always returns, with one line printed.  When the
    first call throws, the locals are as initialised, (res_seq, -1), and no
    reading of the clock took place.  When it returns x, the result
    variable holds x and either a later call threw, then the line says not
    supported and the time is -1, or the seven timed calls returned, then
    the line shows the time, 14 readings of the clock took place and, the
    clock being monotone, the time is not negative: a time of -1 always
    means that the policy was reported as not supported. *)
Theorem policy_block_outcomes pl (f : nat → option Z) rs ok ko c o :
  (∀ i, (steady_clock pl i ≤ steady_clock pl (S i))%Qc) →
  ∃ r c' l,
    policy_block pl (throwing f) rs ok ko (World c o)
    = Val r (World c' (o ++ [l])) ∧
    match f c with
    | None => r = (rs, (-1)%Qc) ∧ l = ko ∧ c' = c
    | Some x =>
        r.1 = x ∧
        ((l = ko ∧ r.2 = (-1)%Qc) ∨
         (l = ok r.2 ∧ (0 ≤ r.2)%Qc ∧ c' = (c + 14)%nat))
    end.
Proof.
  intros Hclock. unfold policy_block. unfold throwing at 1. simpl.
  destruct (f c) as [x|]; [|by eexists _, _, _].
  unfold measure, mbind, M_bind.
  destruct (measure_loop_monotone pl (discard (throwing f)) (Z.to_nat 7) []
              c o Hclock (throwing_quiet f))
    as [(t' & Hrun & Hlen & Hall)|(c' & Hrun)]; [done|..].
  - change (mbind (M:=M world)) with (@M_bind world) in Hrun.
    unfold M_bind in Hrun. rewrite Hrun.
    destruct (median_defined t') as (v & -> & Hin).
    { intros ->. simpl in Hlen. lia. }
    eexists _, _, _. split; [done|]. simpl. split; [done|]. right.
    split_and!; [done| |done].
    rewrite Forall_forall in Hall. by apply Hall.
  - change (mbind (M:=M world)) with (@M_bind world) in Hrun.
    unfold M_bind in Hrun. rewrite Hrun.
    eexists _, _, _. split; [done|]. simpl. split; [done|]. by left.
Qed.

Lemma policy_block_outcomes_witness :
  ∃ r c' l,
    policy_block toy_platform' (throwing (λ i, if decide (i = 4)%nat then None
                                                else Some 5))
      3 ParTime ParNotSupported (World 1 [])
    = Val r (World c' ([] ++ [l])).
Proof.
  destruct (policy_block_outcomes toy_platform'
              (λ i, if decide (i = 4)%nat then None else Some 5)
              3 ParTime ParNotSupported 1 [])
    as (r & c' & l & Hrun & _).
  - intros i. simpl. unfold Qcle, Qle. simpl. nia.
  - by exists r, c', l.
Defined.

(** ** The candidate list: sort, unique, overflow *)

Lemma strict_sorted_ext (l1 l2 : list Z) :
  StronglySorted Z.lt l1 → StronglySorted Z.lt l2 →
  (∀ x, x ∈ l1 ↔ x ∈ l2) → l1 = l2.
Proof.
  intros H1. revert l2.
  induction H1 as [|x l1 H1 IH Hx]; intros l2 H2 Hext.
  { destruct l2 as [|y l2]; [done|]. exfalso.
    apply (elem_of_nil y), Hext. left. }
  destruct H2 as [|y l2 H2 Hy].
  { exfalso. apply (elem_of_nil x), Hext. left. }
  rewrite Forall_forall in Hx. rewrite Forall_forall in Hy.
  assert (x = y) as <-.
  { assert (x ∈ y :: l2) as Hx2 by (apply Hext; left).
    assert (y ∈ x :: l1) as Hy1 by (apply Hext; left).
    apply elem_of_cons in Hx2 as [->|Hx2]; [done|].
    apply elem_of_cons in Hy1 as [->|Hy1]; [done|].
    specialize (Hx _ Hy1). specialize (Hy _ Hx2). lia. }
  f_equal. apply IH; [done|]. intros z. split; intros Hz.
  - assert (z ∈ x :: l2) as Hz2 by (apply Hext; by right).
    apply elem_of_cons in Hz2 as [->|]; [|done]. specialize (Hx _ Hz). lia.
  - assert (z ∈ x :: l1) as Hz1 by (apply Hext; by right).
    apply elem_of_cons in Hz1 as [->|]; [|done]. specialize (Hy _ Hz). lia.
Qed.

Lemma sort_unique_sorted l : StronglySorted Z.lt (unique (merge_sort Z.le l)).
Proof. apply unique_sorted, StronglySorted_merge_sort; apply _. Qed.

Lemma sort_unique_elem l x : x ∈ unique (merge_sort Z.le l) ↔ x ∈ l.
Proof. by rewrite unique_elem, merge_sort_Permutation. Qed.

Lemma sort_unique_ext l1 l2 :
  (∀ x, x ∈ l1 ↔ x ∈ l2) →
  unique (merge_sort Z.le l1) = unique (merge_sort Z.le l2).
Proof.
  intros Hext. apply strict_sorted_ext; try apply sort_unique_sorted.
  intros x. by rewrite !sort_unique_elem.
Qed.

(** X10: [sort] then [unique] and [erase] leave the ascending list,
    without repetition, of the values pushed: two vectors with the same
    values give the same list, whatever the order and the repetitions, and
    doing it again changes nothing. *)
Theorem sort_unique_canonical l1 l2 :
  (∀ x, x ∈ l1 ↔ x ∈ l2) →
  unique (merge_sort Z.le l1) = unique (merge_sort Z.le l2) ∧
  StronglySorted Z.lt (unique (merge_sort Z.le l1)) ∧
  NoDup (unique (merge_sort Z.le l1)) ∧
  (∀ x, x ∈ unique (merge_sort Z.le l1) ↔ x ∈ l1) ∧
  unique (merge_sort Z.le (unique (merge_sort Z.le l1)))
  = unique (merge_sort Z.le l1).
Proof.
  intros Hext. split_and!.
  - by apply sort_unique_ext.
  - apply sort_unique_sorted.
  - pose proof (sort_unique_sorted l1) as Hs.
    induction Hs as [|x l Hs IH Hx]; constructor; [|done].
    rewrite Forall_forall in Hx. intros Hin. specialize (Hx _ Hin). lia.
  - apply sort_unique_elem.
  - apply sort_unique_ext. intros x. apply sort_unique_elem.
Qed.

Lemma sort_unique_canonical_witness :
  unique (merge_sort Z.le [4; 2; 2; 1; 4]) = unique (merge_sort Z.le [1; 2; 4]).
Proof.
  refine (proj1 (sort_unique_canonical [4; 2; 2; 1; 4] [1; 2; 4] _)).
  intros x. rewrite !elem_of_cons. pose proof (elem_of_nil x). tauto.
Defined.

(** X11: on a machine of at most 32 hardware threads the loop pushes only
    values that the constants already hold: the candidates are exactly
    1, 2, 4, 8, 16, 32, 64. *)
Theorem candidate_Ks_small_machines H :
  1 ≤ H ≤ 32 → candidate_Ks H = Some small_Ks.
Proof.
  intros HH.
  destruct (push_powers_main H) as (Ks' & Hpush & HKs');
    [lia|unfold INT_MAX; lia|].
  unfold candidate_Ks. rewrite Hpush.
  change (Some (unique (merge_sort Z.le (small_Ks ++ Ks'))) = Some small_Ks).
  f_equal. transitivity (unique (merge_sort Z.le small_Ks)); [|done].
  apply sort_unique_ext. intros x. rewrite elem_of_app. split; [|by left].
  intros [Hx|Hx]; [done|]. apply HKs' in Hx as (i & Hi & -> & Hle).
  assert (i < 7) as Hi7.
  { destruct (decide (i < 7)) as [|Hge]; [done|].
    assert (2 ^ 7 ≤ 2 ^ i) by (apply Z.pow_le_mono_r; lia). lia. }
  assert (i = 1 ∨ i = 2 ∨ i = 3 ∨ i = 4 ∨ i = 5 ∨ i = 6) as Hcases by lia.
  unfold small_Ks. rewrite !elem_of_cons.
  destruct Hcases as [->|[->|[->|[->|[->| ->]]]]]; simpl; tauto.
Qed.

Lemma candidate_Ks_small_machines_witness : candidate_Ks 12 = Some small_Ks.
Proof. apply candidate_Ks_small_machines. lia. Defined.

Lemma push_powers_overflow fuel hw (d : nat) Ks :
  2 ^ 30 ≤ 2 * hw → 2 * hw ≤ INT_MAX → (d ≤ 29)%nat →
  push_powers fuel hw (2 ^ (30 - Z.of_nat d)) Ks = None.
Proof.
  intros Hlo Hhi. revert fuel Ks.
  induction d as [|d IH]; intros fuel Ks Hd; (destruct fuel as [|fuel]; [done|]).
  - cbn [push_powers]. change (30 - Z.of_nat 0) with 30.
    rewrite decide_False by (unfold INT_MIN, INT_MAX in *; lia).
    rewrite decide_True by lia.
    by rewrite decide_True by (unfold INT_MAX; lia).
  - cbn [push_powers].
    rewrite decide_False by (unfold INT_MIN, INT_MAX in *; lia).
    assert (2 ^ (30 - Z.of_nat (S d)) * 2 = 2 ^ (30 - Z.of_nat d)) as Hdouble.
    { replace (30 - Z.of_nat d) with (30 - Z.of_nat (S d) + 1) by lia.
      rewrite Z.pow_add_r by lia. lia. }
    assert (2 ^ (30 - Z.of_nat d) ≤ 2 ^ 30) as Hle
      by (apply Z.pow_le_mono_r; lia).
    rewrite decide_True by lia.
    rewrite decide_False by (unfold INT_MAX; lia).
    rewrite Hdouble. apply IH. lia.
Qed.

(** X12: for hw >= 1 the loop of the candidates has a defined result
    exactly when 4 * hw is in the range of int: beyond, [hw * 2] or the
    last [k *= 2] overflows. *)
Theorem candidate_Ks_defined_iff H :
  1 ≤ H → (candidate_Ks H = None ↔ INT_MAX < 4 * H).
Proof.
  intros HH. split.
  - intros Hnone. destruct (decide (INT_MAX < 4 * H)) as [|Hin]; [done|].
    destruct (push_powers_main H) as (Ks' & Hpush & _); [done|lia|].
    unfold candidate_Ks in Hnone. by rewrite Hpush in Hnone.
  - intros Hbig. unfold candidate_Ks.
    destruct (decide (INT_MAX < H * 2)) as [Hover|Hin].
    + simpl. by rewrite decide_True by (right; done).
    + change 2 with (2 ^ (30 - Z.of_nat 29)) at 1.
      rewrite push_powers_overflow; [done| | |lia]; unfold INT_MAX in *; lia.
Qed.

Lemma candidate_Ks_defined_iff_witness :
  candidate_Ks 536870912 = None ↔ INT_MAX < 4 * 536870912.
Proof. apply candidate_Ks_defined_iff. lia. Defined.

(** ** The best pair *)

(** X13: whatever the observations, the best time is at most the initial
    1e300 and at most every observed time; the best pair is the initial
    (1e300, 1), when no observed time is below 1e300, or one of the
    observations; and further observations never raise the best time. *)
Theorem track_best_bounds obs :
  ((track_best obs).1 ≤ bestT_init)%Qc ∧
  (∀ o, o ∈ obs → ((track_best obs).1 ≤ o.2)%Qc) ∧
  ((track_best obs = (bestT_init, bestK_init) ∧
    ∀ o, o ∈ obs → (bestT_init ≤ o.2)%Qc) ∨
   ((track_best obs).2, (track_best obs).1) ∈ obs) ∧
  (∀ more, ((track_best (obs ++ more)).1 ≤ (track_best obs).1)%Qc).
Proof.
  split_and!.
  - unfold track_best.
    destruct (foldl_best_step obs (bestT_init, bestK_init))
      as [[-> _]|(i & K & t & _ & -> & Ht & _)]; [done|].
    by apply Qclt_le_weak.
  - intros o Ho. unfold track_best.
    destruct (foldl_best_step obs (bestT_init, bestK_init))
      as [[-> Hall]|(i & K & t & _ & -> & _ & Hle & _)]; [by apply Hall|].
    apply list_elem_of_lookup_1 in Ho as [j Hj]. by eapply Hle.
  - unfold track_best.
    destruct (foldl_best_step obs (bestT_init, bestK_init))
      as [[-> Hall]|(i & K & t & Hi & -> & _)]; [by left|].
    right. by eapply list_elem_of_lookup_2.
  - intros more. unfold track_best. rewrite foldl_app.
    destruct (foldl_best_step more
                (foldl best_step (bestT_init, bestK_init) obs))
      as [[-> _]|(i & K & t & _ & -> & Ht & _)]; [done|].
    by apply Qclt_le_weak.
Qed.

Lemma candidates_head H Ks0 :
  1 ≤ H → 4 * H ≤ INT_MAX → candidate_Ks H = Some Ks0 →
  ∃ Ks', Ks0 = 1 :: Ks' ∧ Forall (λ K, 1 < K) Ks'.
Proof.
  intros HH Hmax HKs.
  destruct (push_powers_main H HH Hmax) as (Ks' & Hpush & HKs').
  unfold candidate_Ks in HKs. rewrite Hpush in HKs.
  assert (Ks0 = unique (merge_sort Z.le (small_Ks ++ Ks'))) as HK0
    by (by injection HKs).
  clear HKs.
  pose proof (sort_unique_sorted (small_Ks ++ Ks')) as Hs.
  pose proof (sort_unique_elem (small_Ks ++ Ks')) as Hel.
  rewrite <-HK0 in Hs, Hel. clear HK0.
  assert (Hge : ∀ x, x ∈ small_Ks ++ Ks' → 1 ≤ x).
  { intros x [Hx|Hx]%elem_of_app.
    - unfold small_Ks in Hx. rewrite !elem_of_cons, elem_of_nil in Hx. lia.
    - apply HKs' in Hx as (i & Hi & -> & _).
      assert (2 ^ 1 ≤ 2 ^ i) by (apply Z.pow_le_mono_r; lia). lia. }
  assert (H1 : 1 ∈ small_Ks ++ Ks') by (apply elem_of_app; left; left).
  apply Hel in H1.
  destruct Hs as [|x l Hs Hx]; [by apply elem_of_nil in H1|].
  rewrite Forall_forall in Hx.
  assert (1 ≤ x) by (apply Hge, Hel; left).
  apply elem_of_cons in H1 as [Heq|H1].
  - subst x. exists l. split; [done|]. apply Forall_forall. intros y Hy. by apply Hx.
  - specialize (Hx _ H1). lia.
Qed.

(** X14: in a turn of the predicate loop the candidates begin with K = 1,
    the K with which bestK is initialised, and every other candidate is
    greater; so the best K that the turn reports is always one of the
    candidates, and the best pair is the initial one or the K and the time
    of one of the rows. *)
Theorem best_K_is_a_candidate pl a name pred w :
  Z.of_nat (length a) ≤ INT_MAX →
  0 ≤ hardware_concurrency pl → 4 * hardware_concurrency pl ≤ INT_MAX →
  ∃ r w' Ks',
    pred_block pl a name pred w = Val r w' ∧
    Ks r = 1 :: Ks' ∧ Forall (λ K, 1 < K) Ks' ∧
    bestK r ∈ Ks r ∧
    ((bestT r, bestK r) = (bestT_init, bestK_init) ∨
     (bestK r, seq_cnt a pred, bestT r) ∈ rows r).
Proof.
  intros Ha Hhc Hmax. destruct w as [c o].
  destruct (pred_block_world pl a name pred c o Ha Hhc Hmax)
    as (r & c' & t_seq & l1 & l2 & ts & Hrun & _ & HKs & Hlen & Hrows & Hbest
        & _).
  destruct (hw_in_range pl Hhc Hmax) as [Hhw Hhw'].
  destruct (candidates_head _ _ Hhw Hhw' HKs) as (Ks' & HKs' & Hgt).
  eexists r, _, Ks'. split; [exact Hrun|]. split; [done|]. split; [done|].
  unfold track_best in Hbest.
  destruct (foldl_best_step (zip (Ks r) ts) (bestT_init, bestK_init))
    as [[Heq _]|(i & K & t & Hi & Heq & _)];
    rewrite Heq in Hbest; injection Hbest as HbT HbK; rewrite HbT, HbK.
  - split; [rewrite HKs'; left|by left].
  - apply lookup_zip_with_Some in Hi as (K0 & t0 & [= -> ->] & HK & Ht).
    split; [by eapply list_elem_of_lookup_2|]. right.
    rewrite Hrows. apply (list_elem_of_lookup_2 _ i).
    apply lookup_zip_with_Some. by exists K0, t0.
Qed.

Lemma best_K_is_a_candidate_witness :
  ∃ r w' Ks',
    pred_block toy_platform [1; 2; 3; 4; 5; 6] "light" pred_light world0
    = Val r w' ∧
    Ks r = 1 :: Ks' ∧ bestK r ∈ Ks r.
Proof.
  destruct (best_K_is_a_candidate toy_platform [1; 2; 3; 4; 5; 6] "light"
              pred_light world0)
    as (r & w' & Ks' & Hrun & HKs & _ & Hbest & _).
  - by vm_compute.
  - cbn. lia.
  - cbn. unfold INT_MAX. lia.
  - exists r, w', Ks'. split_and!; assumption.
Defined.

(** ** The output and the workloads of main *)

Lemma pred_block_lines pl a name pred c o :
  Z.of_nat (length a) ≤ INT_MAX →
  0 ≤ hardware_concurrency pl → 4 * hardware_concurrency pl ≤ INT_MAX →
  ∃ r c' extra,
    pred_block pl a name pred (World c o) = Val r (World c' (o ++ extra)) ∧
    Forall (λ l, ∀ K, l ≠ ErrorAt K) extra.
Proof.
  intros Ha Hhc Hmax.
  destruct (pred_block_world pl a name pred c o Ha Hhc Hmax)
    as (r & c' & t_seq & l1 & l2 & ts & Hrun & _ & _ & _ & _ & _ & Hl1 & Hl2 & _).
  eexists r, c', _. split; [exact Hrun|].
  repeat (apply Forall_cons; split); try done.
  - by destruct Hl1 as [-> | ->].
  - by destruct Hl2 as [-> | ->].
  - apply Forall_app. split; [|by repeat constructor].
    apply Forall_forall. intros l Hl.
    apply elem_of_lookup_zip_with in Hl as (i & K & t & -> & _). done.
Qed.

Lemma pred_loop_lines pl a ps c o :
  Z.of_nat (length a) ≤ INT_MAX →
  0 ≤ hardware_concurrency pl → 4 * hardware_concurrency pl ≤ INT_MAX →
  ∃ rs c' extra,
    pred_loop pl a ps (World c o) = Val rs (World c' (o ++ extra)) ∧
    Forall (λ l, ∀ K, l ≠ ErrorAt K) extra.
Proof.
  intros Ha Hhc Hmax. revert c o.
  induction ps as [|[name pred] ps IH]; intros c o.
  - exists [], c, []. by rewrite app_nil_r.
  - destruct (pred_block_lines pl a name pred c o Ha Hhc Hmax)
      as (r & c1 & extra1 & Hrun & Hno1).
    destruct (IH c1 (o ++ extra1)) as (rs & c' & extra2 & Hloop & Hno2).
    exists (r :: rs), c', (extra1 ++ extra2). split.
    + cbn [pred_loop fst snd]. unfold mbind, M_bind.
      by rewrite Hrun, Hloop, <-app_assoc.
    + by apply Forall_app.
Qed.

Lemma size_loop_lines lib pl sizes g c o :
  Forall (λ N, 0 ≤ N ≤ INT_MAX) sizes →
  0 ≤ hardware_concurrency pl → 4 * hardware_concurrency pl ≤ INT_MAX →
  ∃ tr c' extra,
    size_loop lib pl sizes g (World c o) = Val tr (World c' (o ++ extra)) ∧
    Forall (λ l, ∀ K, l ≠ ErrorAt K) extra.
Proof.
  intros Hsizes Hhc Hmax. revert g c o.
  induction Hsizes as [|N sizes HN Hsizes IH]; intros g c o.
  - exists [], c, []. by rewrite app_nil_r.
  - pose proof (fill_length lib (Z.to_nat N) g) as Hlen.
    cbn [size_loop].
    destruct (fill lib (Z.to_nat N) g) as [a g']. cbn [fst] in Hlen.
    generalize (preds lib). intros ps.
    destruct (pred_loop_lines pl a ps c (o ++ [SizeHeader N]))
      as (rs & c1 & extra1 & Hloop & Hno1); [lia|done|done|].
    destruct (IH g' c1 ((o ++ [SizeHeader N]) ++ extra1))
      as (tr & c' & extra2 & Hrest & Hno2).
    exists ((N, a, rs) :: tr), c', (SizeHeader N :: extra1 ++ extra2). split.
    + unfold mbind, M_bind, print. cbn [clock_reads out].
      rewrite Hloop, Hrest. do 2 f_equal.
      by rewrite <-!app_assoc.
    + constructor; [done|]. by apply Forall_app.
Qed.

(** In the model, where every thread asked for is started, [main] returns. *)
Lemma main_for_returns lib pl sizes w :
  Forall (λ N, 0 ≤ N ≤ INT_MAX) sizes →
  0 ≤ hardware_concurrency pl → 4 * hardware_concurrency pl ≤ INT_MAX →
  ∃ tr w', main_for lib pl sizes w = Val tr w'.
Proof.
  intros Hsizes Hhc Hmax. destruct w as [c o].
  destruct (size_loop_lines lib pl sizes (mt19937_64 lib seed) c
              (o ++ [CpuThreads (hardware_concurrency pl)])
              Hsizes Hhc Hmax)
    as (tr & c' & extra & Hrun & _).
  eexists tr, _.
  unfold main_for, mbind, M_bind, print. cbn [clock_reads out]. exact Hrun.
Qed.

(** X15: whenever main returns, over sizes that int holds such as its own
    and on a machine whose hardware concurrency keeps the candidate loop
    within int, what it has printed starts with the line of the CPU threads
    and none of its lines is the line of an incorrect result, whatever the
    clock showed and whatever the library did with the policies. *)
Theorem main_prints_no_error lib pl sizes w tr w' :
  Forall (λ N, 0 ≤ N ≤ INT_MAX) sizes →
  0 ≤ hardware_concurrency pl → 4 * hardware_concurrency pl ≤ INT_MAX →
  main_for lib pl sizes w = Val tr w' →
  ∃ extra,
    out w' = out w ++ CpuThreads (hardware_concurrency pl) :: extra ∧
    ∀ K, ErrorAt K ∉ extra.
Proof.
  intros Hsizes Hhc Hmax Hmain. destruct w as [c o].
  destruct (size_loop_lines lib pl sizes (mt19937_64 lib seed) c
              (o ++ [CpuThreads (hardware_concurrency pl)])
              Hsizes Hhc Hmax)
    as (tr0 & c' & extra & Hrun & Hno).
  unfold main_for, mbind, M_bind, print in Hmain. cbn [clock_reads out] in Hmain.
  rewrite Hrun in Hmain. injection Hmain as _ <-.
  exists extra. split.
  - cbn [out]. by rewrite <-app_assoc.
  - intros K HK. rewrite Forall_forall in Hno. by apply (Hno _ HK K).
Qed.

Lemma main_prints_no_error_witness :
  ∃ tr w',
    main_for toy_library toy_platform Ns world0 = Val tr w' ∧
    ∃ extra,
      out w' = out world0 ++ CpuThreads (hardware_concurrency toy_platform)
                          :: extra ∧
      ∀ K, ErrorAt K ∉ extra.
Proof.
  destruct (main_for_returns toy_library toy_platform Ns world0)
    as (tr & w' & Hmain).
  - exact Ns_in_range.
  - cbn. lia.
  - cbn. unfold INT_MAX. lia.
  - exists tr, w'. split; [exact Hmain|].
    apply (main_prints_no_error toy_library toy_platform Ns world0 tr w').
    + exact Ns_in_range.
    + cbn. lia.
    + cbn. unfold INT_MAX. lia.
    + exact Hmain.
Defined.

Lemma fill_app lib (n m : nat) g :
  fill lib (n + m) g
  = ((fill lib n g).1 ++ (fill lib m (fill lib n g).2).1,
     (fill lib m (fill lib n g).2).2).
Proof.
  revert g. induction n as [|n IH]; intros g.
  - simpl. by destruct (fill lib m g).
  - simpl. destruct (uniform_int lib 0 1000000 g) as [x g1].
    rewrite IH. destruct (fill lib n g1) as [xs g2]. simpl.
    by destruct (fill lib m g2).
Qed.

Lemma reference_workloads lib sizes g :
  Forall (λ N, 0 ≤ N ≤ INT_MAX) sizes →
  (λ d : Z * list Z * list Z, d.1.1) <$> reference_from lib sizes g = sizes ∧
  Forall (λ d : Z * list Z * list Z, Z.of_nat (length d.1.2) = d.1.1)
         (reference_from lib sizes g) ∧
  concat ((λ d : Z * list Z * list Z, d.1.2) <$> reference_from lib sizes g)
  = (fill lib (Z.to_nat (foldr Z.add 0 sizes)) g).1.
Proof.
  intros Hsizes. revert g.
  induction Hsizes as [|N sizes HN Hsizes IH]; intros g; [done|].
  assert (0 ≤ foldr Z.add 0 sizes) as Hsum.
  { clear IH. induction Hsizes as [|M sizes HM _ IHs]; simpl; lia. }
  cbn [reference_from foldr].
  rewrite Z2Nat.inj_add, fill_app by lia.
  pose proof (fill_length lib (Z.to_nat N) g) as Hlen.
  destruct (fill lib (Z.to_nat N) g) as [a g']. cbn [fst snd] in *.
  destruct (IH g') as (IH1 & IH2 & IH3).
  rewrite !fmap_cons. cbn [fst snd concat]. split_and!.
  - by rewrite IH1.
  - constructor; [cbn [fst snd]; lia|done].
  - by rewrite IH3.
Qed.

(** X16: one engine runs through the loop of the sizes: the workloads of
    an execution have the sizes asked for and, put end to end, are the
    first draws of the engine seeded with 123456, as many as the sizes add
    up to; the workload of a size starts where that of the size before
    stopped. *)
Theorem workloads_are_one_stream lib pl sizes w :
  Forall (λ N, 0 ≤ N ≤ INT_MAX) sizes →
  0 ≤ hardware_concurrency pl → 4 * hardware_concurrency pl ≤ INT_MAX →
  ∃ tr w',
    main_for lib pl sizes w = Val tr w' ∧
    (λ b : Z * list Z * list report, b.1.1) <$> tr = sizes ∧
    Forall (λ b : Z * list Z * list report,
              Z.of_nat (length b.1.2) = b.1.1) tr ∧
    concat ((λ b : Z * list Z * list report, b.1.2) <$> tr)
    = (fill lib (Z.to_nat (foldr Z.add 0 sizes)) (mt19937_64 lib seed)).1.
Proof.
  intros Hsizes Hhc Hmax. destruct w as [c o].
  destruct (size_loop_world lib pl sizes (mt19937_64 lib seed) c
              (o ++ [CpuThreads (hardware_concurrency pl)]) Hsizes Hhc Hmax)
    as (tr & c' & o' & Hrun & Hdata & _).
  destruct (reference_workloads lib sizes (mt19937_64 lib seed) Hsizes)
    as (Hs & Hl & Hc).
  rewrite <-Hdata in Hs, Hl, Hc.
  rewrite <-list_fmap_compose in Hs. rewrite <-list_fmap_compose in Hc.
  rewrite Forall_fmap in Hl.
  exists tr, (World c' o'). split_and!.
  - unfold main_for, mbind, M_bind, print. cbn [clock_reads out]. exact Hrun.
  - exact Hs.
  - exact Hl.
  - exact Hc.
Qed.

Lemma workloads_are_one_stream_witness :
  ∃ tr w',
    main_for toy_library toy_platform [5; 3] world0 = Val tr w' ∧
    (λ b : Z * list Z * list report, b.1.1) <$> tr = [5; 3] ∧
    Forall (λ b : Z * list Z * list report,
              Z.of_nat (length b.1.2) = b.1.1) tr ∧
    concat ((λ b : Z * list Z * list report, b.1.2) <$> tr)
    = (fill toy_library (Z.to_nat (foldr Z.add 0 [5; 3]))
         (mt19937_64 toy_library seed)).1.
Proof.
  apply (workloads_are_one_stream toy_library toy_platform [5; 3] world0).
  - unfold INT_MAX. repeat constructor; lia.
  - cbn. lia.
  - cbn. unfold INT_MAX. lia.
Defined.

(** * The [int] that receives [a.size()]

    [int n = a.size()] keeps the size modulo 2^32.  seq_cnt counts over the
    whole vector whatever its size; my_parallel_cnt computes the ranges of
    its threads from [n]. *)

Lemma length_zeros n : 0 ≤ n → Z.of_nat (length (zeros n)) = n.
Proof. intros Hn. unfold zeros. rewrite length_replicate. lia. Qed.

Lemma seq_cnt_zeros n : 0 ≤ n → seq_cnt (zeros n) pred_light = n.
Proof.
  intros Hn. destruct (seq_cnt_all (zeros n) pred_light) as [_ ->].
  - by apply length_zeros.
  - unfold zeros. apply Forall_replicate. reflexivity.
Qed.

(** A size of 2^32 is narrowed to 0: every range is empty. *)
Lemma narrowed_to_zero_count a p K :
  1 < K → Z.of_nat (length a) = 4294967296 →
  my_parallel_cnt a p K = Some 0.
Proof.
  intros HK Hlen.
  destruct (spawned_threads a p K HK) as [Hsp ->].
  rewrite Hsp, Hlen. change (to_int 4294967296) with 0.
  rewrite run_threads_empty_ranges.
  - simpl. f_equal. induction (Z.to_nat K) as [|m IH]; [done|]. by simpl.
  - apply Forall_forall. intros k Hk%elem_of_seqZ. lia.
Qed.

(** A size of 2^31 is narrowed to INT_MIN: with K = 2 the thread of the
    turn 0 gets L = 0 and R = -2^30. *)
Lemma narrowed_to_negative a p :
  Z.of_nat (length a) = 2147483648 →
  to_int (Z.of_nat (length a)) = INT_MIN ∧
  spawned (my_parallel_call a p 2)
  = [Thread 0 (-1073741824) 0; Thread (-1073741824) INT_MIN 1] ∧
  range a 0 (-1073741824) = None ∧
  my_parallel_cnt a p 2 = None.
Proof.
  intros Hlen.
  destruct (spawned_threads a p 2) as [Hsp Hret]; [lia|].
  rewrite Hlen in Hsp. change (to_int 2147483648) with INT_MIN in Hsp.
  change (seqZ 0 2) with [0; 1] in Hsp.
  change (spawn INT_MIN 2 <$> [0; 1])
    with [Thread 0 (-1073741824) 0; Thread (-1073741824) INT_MIN 1] in Hsp.
  assert (Hr : range a 0 (-1073741824) = None).
  { unfold range. apply decide_False. lia. }
  split_and!; [by rewrite Hlen|done|done|].
  assert (Hrun : ∀ partial,
            run_thread a p (Thread 0 (-1073741824) 0) partial = None).
  { intros partial. unfold run_thread. cbn [th_L th_R]. by rewrite Hr. }
  rewrite Hret, Hsp. cbn [run_threads]. by rewrite Hrun.
Qed.

(** C1 as stated fails: a call with K = 3 in which the thread of the turn 2
    cannot be started returns nothing, where seq_cnt returns 3; and over a
    vector of 2^32 zeros, all of them even, my_parallel_cnt with K = 2,
    both of its threads started, returns 0 where seq_cnt returns 2^32. *)
Lemma partitioned_differs_from_sequential :
  (my_parallel_cnt_on (λ k, bool_decide (k < 2)) [1; 2; 3; 4; 5; 6]
     pred_light 3 = Terminated ∧
   seq_cnt [1; 2; 3; 4; 5; 6] pred_light = 3) ∧
  (my_parallel_cnt (zeros 4294967296) pred_light 2 = Some 0 ∧
   my_parallel_cnt_on (λ _, true) (zeros 4294967296) pred_light 2
   = Returned 0 ∧
   seq_cnt (zeros 4294967296) pred_light = 4294967296).
Proof.
  assert (Hcnt : my_parallel_cnt (zeros 4294967296) pred_light 2 = Some 0).
  { apply narrowed_to_zero_count; [lia|]. apply length_zeros. lia. }
  split_and!.
  - reflexivity.
  - reflexivity.
  - exact Hcnt.
  - rewrite my_parallel_cnt_on_started by done. by rewrite Hcnt.
  - apply seq_cnt_zeros. lia.
Qed.

(** C9 as stated fails for a vector of 2^31 elements and K = 2: [int n] is
    INT_MIN, the thread of the turn 0 is started with L = 0 and R = -2^30
    and the other one with L = -2^30 and R = INT_MIN, so that R < L and
    R < 0: [a.begin() + L, a.begin() + R) is not a range of the vector, and
    the call has no defined result, where seq_cnt returns 2^31. *)
Lemma narrowed_size_leaves_the_vector :
  to_int (Z.of_nat (length (zeros 2147483648))) = INT_MIN ∧
  spawned (my_parallel_call (zeros 2147483648) pred_light 2)
  = [Thread 0 (-1073741824) 0; Thread (-1073741824) INT_MIN 1] ∧
  Forall (λ t, th_R t < th_L t ∧ th_R t < 0 ∧
               range (zeros 2147483648) (th_L t) (th_R t) = None)
         (spawned (my_parallel_call (zeros 2147483648) pred_light 2)) ∧
  my_parallel_cnt (zeros 2147483648) pred_light 2 = None ∧
  seq_cnt (zeros 2147483648) pred_light = 2147483648.
Proof.
  destruct (narrowed_to_negative (zeros 2147483648) pred_light)
    as (Hn & Hsp & Hr & Hcnt); [apply length_zeros; lia|].
  split_and!; [exact Hn|exact Hsp| |exact Hcnt|apply seq_cnt_zeros; lia].
  rewrite Hsp. repeat apply Forall_cons_2; [| |apply Forall_nil_2].
  - cbn [th_L th_R]. split_and!; [lia|lia|exact Hr].
  - cbn [th_L th_R]. unfold INT_MIN. split_and!; [lia|lia|].
    unfold range. apply decide_False. lia.
Qed.
